(** * sanitize_filename.py: Windows-compatible renaming of a directory tree

    A shallow embedding of [src/sanitize_filename.py] and the properties of
    its validator, its sanitizer and its bottom-up tree renamer.

    Modelling conventions.
    - A Python [str] is a [list ascii]: a sequence of code points below 256.
      The validator, the sanitizer and the renamer treat every code point
      above 127 alike (outside each regular-expression class, neither a
      period, a space nor a separator), so the higher ones behave as those
      between 128 and 255 do.
    - The host is a POSIX one: [os.path] is [posixpath] and directory entry
      names are compared exactly.
    - A Python [int] index is a [Z]; the loop counter of the collision loop
      is a [nat].
    - The file system is a state that the renamer threads through its
      loops, together with the audit log; [setup_logging] only chooses where
      the log is written and has no counterpart here.
    - A loop with no bound in the script takes a [fuel] and returns [None]
      when it runs out; the theorems on the renamer give a [fuel] that is
      enough. *)

From Stdlib Require Import List Ascii String ZArith Lia Bool Arith FinFun.
From Stdlib Require Import DecimalString DecimalNat.
Import ListNotations.

Local Open Scope string_scope.
Local Open Scope list_scope.

(** ** Python strings *)

Definition str := list ascii.

Coercion list_ascii_of_string : string >-> list.

Fixpoint str_eqb (a b : str) : bool :=
  match a, b with
  | [], [] => true
  | x :: a', y :: b' => Ascii.eqb x y && str_eqb a' b'
  | _, _ => false
  end.

(** [x in s] for a set or list of strings. *)
Definition str_mem (x : str) (s : list str) : bool := existsb (str_eqb x) s.

(** [c in chars] for a character. *)
Definition chr_mem (c : ascii) (chars : str) : bool := existsb (Ascii.eqb c) chars.

(** [p.rfind(c)] for a one-character needle: the highest index of [c] in
    [p], or [-1]. *)
Fixpoint rfind_from (i : Z) (p : str) (c : ascii) : Z :=
  match p with
  | [] => -1
  | a :: p' =>
      let r := rfind_from (i + 1) p' c in
      if (0 <=? r)%Z then r else if Ascii.eqb a c then i else (-1)%Z
  end.

Definition rfind (p : str) (c : ascii) : Z := rfind_from 0 p c.

(** [p[i:j]], [p[:j]] and [p[i:]] for indices [0 <= i]; the script never
    slices with a negative index. *)
Definition slice (p : str) (i j : Z) : str :=
  firstn (Z.to_nat (j - i)) (skipn (Z.to_nat i) p).

Definition slice_to (p : str) (j : Z) : str := firstn (Z.to_nat j) p.

Definition slice_from (p : str) (i : Z) : str := skipn (Z.to_nat i) p.

(** [s.endswith(suffix)]. *)
Definition endswith (s suffix : str) : bool :=
  (List.length suffix <=? List.length s)%nat
  && str_eqb (skipn (List.length s - List.length suffix) s) suffix.

(** [s.lstrip(chars)], [s.rstrip(chars)], [s.strip(chars)]. *)
Fixpoint lstrip (chars : str) (s : str) : str :=
  match s with
  | [] => []
  | c :: s' => if chr_mem c chars then lstrip chars s' else s
  end.

Definition rstrip (chars : str) (s : str) : str := rev (lstrip chars (rev s)).

Definition strip (chars : str) (s : str) : str := rstrip chars (lstrip chars s).

(** The characters [str.strip()] removes when it has no argument, among the
    code points below 256. *)
Definition whitespace : str :=
  [ascii_of_nat 9; ascii_of_nat 10; ascii_of_nat 11; ascii_of_nat 12;
   ascii_of_nat 13; ascii_of_nat 28; ascii_of_nat 29; ascii_of_nat 30;
   ascii_of_nat 31; ascii_of_nat 32; ascii_of_nat 133; ascii_of_nat 160].

(** [s.upper()].  Letters [a-z] go to [A-Z].  The upper case of a non-ASCII
    character contains a non-ASCII character or one of the letters [I], [S]
    and [F]; no reserved device name has any of these, so a name with such a
    character is not reserved whatever its upper case is.  The model leaves
    the character as it is, which decides membership in the reserved set the
    same way. *)
Definition in_range (lo hi c : ascii) : bool :=
  (lo <=? c)%char && (c <=? hi)%char.

Definition upper_char (c : ascii) : ascii :=
  if in_range "a" "z" c then ascii_of_N (N_of_ascii c - 32) else c.

Definition upper (s : str) : str := map upper_char s.

(** [str(n)] of a non-negative integer, as an f-string prints it. *)
Definition str_of_nat (n : nat) : str :=
  list_ascii_of_string (NilEmpty.string_of_uint (Nat.to_uint n)).

(** ** Regular expressions of the script *)

Definition alnum (c : ascii) : bool :=
  in_range "a" "z" c || in_range "A" "Z" c || in_range "0" "9" c.

(** The class [[a-zA-Z0-9_\-\.]] of [allowed_pattern]. *)
Definition allowed_class (c : ascii) : bool :=
  alnum c || Ascii.eqb c "_" || Ascii.eqb c "-" || Ascii.eqb c ".".

(** The class [[^a-zA-Z0-9_\-]] replaced in the name. *)
Definition name_class (c : ascii) : bool :=
  negb (alnum c || Ascii.eqb c "_" || Ascii.eqb c "-").

(** The class [[^a-zA-Z0-9\.]] replaced in the extension. *)
Definition ext_class (c : ascii) : bool :=
  negb (alnum c || Ascii.eqb c ".").

(** The longest prefix of [s] inside a class, and the rest. *)
Fixpoint span (cls : ascii -> bool) (s : str) : str * str :=
  match s with
  | [] => ([], [])
  | c :: s' =>
      if cls c then let '(m, r) := span cls s' in (c :: m, r) else ([], s)
  end.

(** [re.match(r'^[cls]+$', s)] as a truth value.  The run of class
    characters is greedy and no shorter run can end where [$] holds, so the
    match exists exactly when the run is not empty and stops at the end of
    the string or at a final newline, where Python's [$] also matches. *)
Definition re_match_plus (cls : ascii -> bool) (s : str) : bool :=
  let '(m, r) := span cls s in
  negb (str_eqb m []) && (str_eqb r [] || str_eqb r [ascii_of_nat 10]).

(** [re.sub(r'[cls]', repl, s)] for a one-character class and a replacement
    with no backslash (a template with a backslash is outside the model):
    every character of the class becomes [repl]. *)
Definition re_sub (cls : ascii -> bool) (repl : str) (s : str) : str :=
  flat_map (fun c => if cls c then repl else [c]) s.

(** ** os.path.splitext *)

(** The [while] loop of [genericpath._splitext] that skips leading dots; it
    runs at most [dotIndex - filenameIndex] times, which [n] counts. *)
Fixpoint skip_leading_dots (n : nat) (p : str) (extsep : ascii)
    (filenameIndex dotIndex : Z) : str * str :=
  match n with
  | O => (p, slice_to p 0)
  | S n' =>
      if negb (str_eqb (slice p filenameIndex (filenameIndex + 1)) [extsep])
      then (slice_to p dotIndex, slice_from p dotIndex)
      else skip_leading_dots n' p extsep (filenameIndex + 1) dotIndex
  end.

(** [genericpath._splitext(p, sep, altsep, extsep)]. *)
Definition _splitext (p : str) (sep : ascii) (altsep : option ascii)
    (extsep : ascii) : str * str :=
  let sepIndex := rfind p sep in
  let sepIndex :=
    match altsep with
    | Some a => Z.max sepIndex (rfind p a)
    | None => sepIndex
    end in
  let dotIndex := rfind p extsep in
  if (dotIndex >? sepIndex)%Z then
    let filenameIndex := (sepIndex + 1)%Z in
    skip_leading_dots (Z.to_nat (dotIndex - filenameIndex)) p extsep
      filenameIndex dotIndex
  else (p, slice_to p 0).

(** [posixpath.splitext]. *)
Definition splitext (p : str) : str * str := _splitext p "/" None ".".

(** ** The validator *)

Definition reserved_names : list str :=
  [ "CON" : str; "PRN" : str; "AUX" : str; "NUL" : str;
    "COM1" : str; "COM2" : str; "COM3" : str; "COM4" : str; "COM5" : str;
    "COM6" : str; "COM7" : str; "COM8" : str; "COM9" : str;
    "LPT1" : str; "LPT2" : str; "LPT3" : str; "LPT4" : str;
    "LPT5" : str; "LPT6" : str; "LPT7" : str; "LPT8" : str; "LPT9" : str ].

Definition is_valid_windows_filename (filename : str) : bool :=
  let name_without_ext := upper (fst (splitext filename)) in
  if str_mem name_without_ext reserved_names then false
  else if endswith filename " " || endswith filename "." then false
  else if negb (re_match_plus allowed_class filename) then false
  else true.

(** ** The sanitizer *)

Definition default_replacement : str := "_".

Definition sanitize_filename (filename : str) (replacement : str) : str :=
  let '(name, ext) := splitext filename in
  let sanitized_name := re_sub name_class replacement name in
  let sanitized_name := strip " ." sanitized_name in
  let sanitized_name :=
    match sanitized_name with
    | [] => "unnamed_file" : str
    | _ :: _ => sanitized_name
    end in
  let sanitized_ext :=
    match ext with
    | [] => "" : str
    | _ :: _ => re_sub ext_class replacement ext
    end in
  sanitized_name ++ sanitized_ext.

(** ** The file system *)

(** A tree of regular files and directories; a directory lists its entries
    in the order [os.scandir] reports them.  There are no symbolic links. *)
#[warnings="-register-all"]
Inductive node : Type :=
| File : node
| Dir (entries : list (str * node)) : node.

(** A path is the list of its components below the root of the tree;
    [Path(root) / name] is [root ++ [name]]. *)
Definition path := list str.

Definition is_dir (t : node) : bool :=
  match t with
  | File => false
  | Dir _ => true
  end.

Fixpoint lookup (name : str) (entries : list (str * node)) : option node :=
  match entries with
  | [] => None
  | (n, c) :: es => if str_eqb name n then Some c else lookup name es
  end.

Fixpoint get (fs : node) (p : path) {struct p} : option node :=
  match p with
  | [] => Some fs
  | name :: p' =>
      match fs with
      | File => None
      | Dir es =>
          match lookup name es with
          | Some c => get c p'
          | None => None
          end
      end
  end.

(** [p.exists()]. *)
Definition path_exists (fs : node) (p : path) : bool :=
  match get fs p with
  | Some _ => true
  | None => false
  end.

(** Apply [f] to the first entry called [name]. *)
Fixpoint map_entry (name : str) (f : node -> node)
    (entries : list (str * node)) : list (str * node) :=
  match entries with
  | [] => []
  | (n, c) :: es =>
      if str_eqb name n then (n, f c) :: es else (n, c) :: map_entry name f es
  end.

(** Replace the subtree at [p] by [f] of it. *)
Fixpoint update (fs : node) (p : path) (f : node -> node) {struct p} : node :=
  match p with
  | [] => f fs
  | name :: p' =>
      match fs with
      | File => File
      | Dir es => Dir (map_entry name (fun c => update c p' f) es)
      end
  end.

(** Give the first entry called [old] the name [new]. *)
Fixpoint rename_entry (old new : str)
    (entries : list (str * node)) : list (str * node) :=
  match entries with
  | [] => []
  | (n, c) :: es =>
      if str_eqb old n then (new, c) :: es else (n, c) :: rename_entry old new es
  end.

Definition rename_in (old new : str) (t : node) : node :=
  match t with
  | File => File
  | Dir es => Dir (rename_entry old new es)
  end.

(** Drop the first entry called [name]. *)
Fixpoint remove_entry (name : str)
    (entries : list (str * node)) : list (str * node) :=
  match entries with
  | [] => []
  | (n, c) :: es =>
      if str_eqb name n then es else (n, c) :: remove_entry name es
  end.

(** Give [old] the name [new] in place of the entry that has it. *)
Definition replace_in (old new : str) (t : node) : node :=
  match t with
  | File => File
  | Dir es => Dir (rename_entry old new (remove_entry new es))
  end.

(** The names [os.walk] collects from one [scandir] pass. *)
Definition dirs_of (entries : list (str * node)) : list str :=
  map fst (filter (fun e => is_dir (snd e)) entries).

Definition nondirs_of (entries : list (str * node)) : list str :=
  map fst (filter (fun e => negb (is_dir (snd e))) entries).

(** ** Logging and state *)

Inductive OSError : Type :=
| FileNotFoundError
| FileExistsError
| IsADirectoryError
| NotADirectoryError
| PermissionError
| OtherError (errno : nat).

Inductive level : Type := INFO | ERROR.

(** The messages of the script, with the values their f-strings print. *)
Inductive message : Type :=
| NoDirectoryProvided
| ProcessingDirectory (directory : str)
| ProcessingComplete
| DirectoryDoesNotExist (directory : path)
| RenamedFile (old_path new_path : path)
| RenamedDirectory (old_path new_path : path)
| FailedToRename (old_path new_path : path) (e : OSError).

Inductive kind : Type := KFile | KDir.

(** The tree, the audit log, and a ghost trace: the entries whose name the
    loops of the renamer have taken up, in order, by kind and [old_path]. *)
Record state : Type := mkState {
  fs : node;
  log : list (level * message);
  visited : list (kind * path)
}.

Definition logging_info (st : state) (m : message) : state :=
  mkState (fs st) (log st ++ [(INFO, m)]) (visited st).

Definition logging_error (st : state) (m : message) : state :=
  mkState (fs st) (log st ++ [(ERROR, m)]) (visited st).

Definition visit (st : state) (k : kind) (p : path) : state :=
  mkState (fs st) (log st) (visited st ++ [(k, p)]).

Definition set_fs (st : state) (t : node) : state :=
  mkState t (log st) (visited st).

(** The f-strings of the two collision loops: [f"{base_name}_{counter}{ext}"]
    and [f"{base_name}_{counter}"]. *)
Definition file_candidate (base_name ext : str) (counter : nat) : str :=
  base_name ++ "_" ++ str_of_nat counter ++ ext.

Definition dir_candidate (base_name : str) (counter : nat) : str :=
  base_name ++ "_" ++ str_of_nat counter.

(** The [while new_path.exists()] loop.  [fmt] is the f-string that builds
    the next name from the counter; the result is the final [new_name], or
    [None] when [fuel] iterations did not end the loop. *)
Fixpoint while_exists (fuel : nat) (t : node) (root : path)
    (fmt : nat -> str) (new_name : str) (counter : nat) : option str :=
  match fuel with
  | O => None
  | S fuel' =>
      if path_exists t (root ++ [new_name])
      then while_exists fuel' t root fmt (fmt counter) (S counter)
      else Some new_name
  end.

Section Renamer.

(** What the host decides and the tree does not: the failures of
    [os.rename] (permissions, length of the path, ...), by the tree and
    the two paths, and what [Path(directory).resolve()] makes of the
    user's string. *)
Variable denied : node -> path -> path -> option OSError.
Variable resolve : str -> path.

(** [old_path.rename(new_path)] inside one directory, as [rename(2)] does
    it on the POSIX host: a missing source is an error; a free target
    takes the entry; a target that is the source itself is left alone; a
    file replaces a file and a directory replaces an empty directory; the
    other pairs are errors (ENOTEMPTY is errno 39). *)
Definition os_rename (t : node) (root : path) (old_name new_name : str)
    : OSError + node :=
  match denied t (root ++ [old_name]) (root ++ [new_name]) with
  | Some e => inl e
  | None =>
      match get t (root ++ [old_name]), get t (root ++ [new_name]) with
      | None, _ => inl FileNotFoundError
      | Some _, None => inr (update t root (rename_in old_name new_name))
      | Some source, Some target =>
          if str_eqb old_name new_name then inr t
          else
            match source, target with
            | File, File => inr (update t root (replace_in old_name new_name))
            | File, Dir _ => inl IsADirectoryError
            | Dir _, File => inl NotADirectoryError
            | Dir _, Dir [] => inr (update t root (replace_in old_name new_name))
            | Dir _, Dir (_ :: _) => inl (OtherError 39)
            end
      end
  end.

(** The body of [for old_name in files]. *)
Definition process_file (fuel : nat) (root : path) (st : state)
    (old_name : str) : option state :=
  let old_path := root ++ [old_name] in
  let st := visit st KFile old_path in
  if negb (is_valid_windows_filename old_name) then
    let new_name := sanitize_filename old_name default_replacement in
    let '(base_name, ext) := splitext new_name in
    match while_exists fuel (fs st) root
            (file_candidate base_name ext) new_name 1 with
    | None => None
    | Some new_name =>
        let new_path := root ++ [new_name] in
        match os_rename (fs st) root old_name new_name with
        | inr t => Some (logging_info (set_fs st t) (RenamedFile old_path new_path))
        | inl e => Some (logging_error st (FailedToRename old_path new_path e))
        end
    end
  else Some st.

(** The body of [for old_name in dirs]. *)
Definition process_dir (fuel : nat) (root : path) (st : state)
    (old_name : str) : option state :=
  let old_path := root ++ [old_name] in
  let st := visit st KDir old_path in
  if negb (is_valid_windows_filename old_name) then
    let new_name := sanitize_filename old_name default_replacement in
    let base_name := new_name in
    match while_exists fuel (fs st) root
            (dir_candidate base_name) new_name 1 with
    | None => None
    | Some new_name =>
        let new_path := root ++ [new_name] in
        match os_rename (fs st) root old_name new_name with
        | inr t => Some (logging_info (set_fs st t) (RenamedDirectory old_path new_path))
        | inl e => Some (logging_error st (FailedToRename old_path new_path e))
        end
    end
  else Some st.

(** A [for] loop whose body may run out of fuel. *)
Fixpoint for_each {A : Type} (body : state -> A -> option state)
    (l : list A) (st : state) : option state :=
  match l with
  | [] => Some st
  | x :: l' =>
      match body st x with
      | Some st' => for_each body l' st'
      | None => None
      end
  end.

(** The body of the loop over [os.walk]: one [(root, dirs, files)]. *)
Definition process_level (fuel : nat) (root : path) (dirs files : list str)
    (st : state) : option state :=
  match for_each (process_file fuel root) files st with
  | Some st' => for_each (process_dir fuel root) dirs st'
  | None => None
  end.

(** [for root, dirs, files in os.walk(top, topdown=False): ...].  The
    walk scans [top], walks into each sub-directory it found, and only
    then yields [top] with the names of that scan; the loop body runs at
    each yield.  A [top] that cannot be scanned yields nothing. *)
Fixpoint walk (fuel : nat) (top : path) (st : state) : option state :=
  match fuel with
  | O => None
  | S fuel' =>
      match get (fs st) top with
      | Some (Dir entries) =>
          let dirs := dirs_of entries in
          let nondirs := nondirs_of entries in
          match for_each (fun st d => walk fuel' (top ++ [d]) st) dirs st with
          | Some st' => process_level fuel top dirs nondirs st'
          | None => None
          end
      | _ => Some st
      end
  end.

Definition rename_files_in_directory (fuel : nat) (directory : str)
    (st : state) : option state :=
  let directory := resolve directory in
  if negb (path_exists (fs st) directory) then
    Some (logging_error st (DirectoryDoesNotExist directory))
  else walk fuel directory st.

(** [main], from the line that [input] returned. *)
Definition main (fuel : nat) (line : str) (st : state) : option state :=
  let directory := strip whitespace line in
  match directory with
  | [] => Some (logging_error st NoDirectoryProvided)
  | _ :: _ =>
      let st := logging_info st (ProcessingDirectory directory) in
      match rename_files_in_directory fuel directory st with
      | Some st' => Some (logging_info st' ProcessingComplete)
      | None => None
      end
  end.

End Renamer.


(** ** Auxiliary notions of the statements *)

Definition all_dots (s : str) : bool := forallb (fun c => Ascii.eqb c ".") s.

(** [posixpath.basename]: what follows the last separator. *)
Definition basename (p : str) : str := slice_from p (rfind p "/" + 1).

(** What [re.sub] leaves in a name, and in an extension after its period. *)
Definition name_char (c : ascii) : bool := negb (name_class c).

Definition ext_char (c : ascii) : bool := alnum c || Ascii.eqb c "_".

(** The name part that [sanitize_filename] builds. *)
Definition sanitized_name (replacement name : str) : str :=
  match strip " ." (re_sub name_class replacement name) with
  | [] => "unnamed_file" : str
  | c :: s => c :: s
  end.

Definition sanitized_ext (replacement ext : str) : str :=
  match ext with
  | [] => []
  | _ :: _ => re_sub ext_class replacement ext
  end.

(** ** Measures and shapes of trees *)

(** The number of nodes, which bounds the depth of the walk and the length
    of every directory. *)
Fixpoint size (t : node) : nat :=
  match t with
  | File => 1
  | Dir es => S (list_sum (map (fun e => size (snd e)) es))
  end.

Fixpoint nodupb (l : list str) : bool :=
  match l with
  | [] => true
  | x :: l' => negb (str_mem x l') && nodupb l'
  end.

(** No directory has two entries of one name. *)
Fixpoint well_formed (t : node) : bool :=
  match t with
  | File => true
  | Dir es => nodupb (map fst es) && forallb (fun e => well_formed (snd e)) es
  end.

(** The tree with the subtree at [p] replaced by [c]. *)
Definition put (t : node) (p : path) (c : node) : node := update t p (fun _ => c).

(** The names in the directory at [root]. *)
Definition listing (t : node) (root : path) : list str :=
  match get t root with
  | Some (Dir es) => map fst es
  | _ => []
  end.

Definition kind_of (t : node) : kind :=
  match t with
  | File => KFile
  | Dir _ => KDir
  end.

(** The entries of a tree in bottom-up order: below each directory, first
    what its sub-directories hold, then its files, then its
    sub-directories. *)
Fixpoint postorder (top : path) (t : node) : list (kind * path) :=
  match t with
  | File => []
  | Dir es =>
      flat_map (fun e => postorder (top ++ [fst e]) (snd e)) es
      ++ map (fun n => (KFile, top ++ [n])) (nondirs_of es)
      ++ map (fun n => (KDir, top ++ [n])) (dirs_of es)
  end.

(** [x] comes before [y] in [l]. *)
Definition before {A : Type} (l : list A) (x y : A) : Prop :=
  exists l1 l2, l = l1 ++ x :: l2 /\ In y l2.

(** [p] lies strictly inside the directory [d]. *)
Definition inside (d p : path) : Prop := exists q, q <> [] /\ p = d ++ q.

(** [N] is the first counter, from 1 on, whose candidate is free in the
    directory [root]. *)
Definition first_free (t : node) (root : path) (fmt : nat -> str) (N : nat) : Prop :=
  1 <= N /\
  path_exists t (root ++ [fmt N]) = false /\
  forall k, 1 <= k < N -> path_exists t (root ++ [fmt k]) = true.

(** ** Invariants of the walk *)

(** The two paths of a record of a rename, done or failed. *)
Definition record_paths (m : message) : option (path * path) :=
  match m with
  | RenamedFile old_path new_path => Some (old_path, new_path)
  | RenamedDirectory old_path new_path => Some (old_path, new_path)
  | FailedToRename old_path new_path _ => Some (old_path, new_path)
  | _ => None
  end.

(** [r] records the rename of the entry [old] of the directory [root] to
    another name in the same directory. *)
Definition renames_entry (root : path) (old : str) (r : level * message) : Prop :=
  exists new, record_paths (snd r) = Some (root ++ [old], root ++ [new]).

(** [r] records the rename of an entry of the trace [tr], inside the
    directory where the trace found it. *)
Definition renames_in_trace (tr : list (kind * path)) (r : level * message) : Prop :=
  exists k root old, In (k, root ++ [old]) tr /\ renames_entry root old r.

(** What one round of either loop does to a state whose tree is [fs0] with
    the directory [top] replaced by the entries [es]: the directory keeps
    its length, the log grows by records of the rename of the entry, and
    the entry is recorded as taken up. *)
Definition level_step (fs0 : node) (top : path) (k : kind) (old : str)
    (es : list (str * node)) (st : state) (r : option state) : Prop :=
  exists st' es' lg,
    r = Some st' /\ fs st' = put fs0 top (Dir es') /\
    List.length es' = List.length es /\
    log st' = log st ++ lg /\
    Forall (renames_entry top old) lg /\
    visited st' = visited st ++ [(k, top ++ [old])].

(** What a walk of [top] does: it replaces the subtree at [top], extends
    the log, and takes up the entries of the subtree found there in
    bottom-up order. *)
Definition walk_result (top : path) (t : node) (st : state) (r : option state) : Prop :=
  exists st' t' lg,
    r = Some st' /\ fs st' = put (fs st) top t' /\
    log st' = log st ++ lg /\
    Forall (renames_in_trace (postorder top t)) lg /\
    visited st' = visited st ++ postorder top t.

(** ** Hosts of the examples *)

(** A host on which no rename fails. *)
Definition no_denial (t : node) (old_path new_path : path) : option OSError := None.

(** A host on which the rename of one path fails for lack of permission. *)
Definition deny_path (p : path) (t : node) (old_path new_path : path)
    : option OSError :=
  if list_eq_dec (list_eq_dec ascii_dec) old_path p then Some PermissionError else None.

(** Components of a string between separators. *)
Fixpoint components (cur : str) (s : str) : list str :=
  match s with
  | [] => [rev cur]
  | c :: s' =>
      if Ascii.eqb c "/" then rev cur :: components [] s'
      else components (c :: cur) s'
  end.

(** A resolver whose working directory is the root of the tree: empty
    components and [.] are dropped, [..] goes up. *)
Definition resolve_from_root (s : str) : path :=
  fold_left (fun p c =>
               if str_eqb c "" || str_eqb c "." then p
               else if str_eqb c ".." then removelast p
               else p ++ [c])
            (components [] s) [].

(** ** Trees of the examples *)

Definition empty_state (t : node) : state := mkState t [] [].

(** A directory with a reserved stem before an extension that needs a
    replacement, and a name that ends with a period. *)
Definition tree_reserved : node :=
  Dir [("CON.a-b" : str, File); ("a." : str, File)].

(** A directory with one device-named file. *)
Definition tree_con : node := Dir [("CON.txt" : str, File)].

(** A directory in a directory, both with a space in their names. *)
Definition tree_nested : node :=
  Dir [("My Folder" : str, Dir [("Sub File.txt" : str, File)]);
       ("notes 1.txt" : str, File)].


(** ** Notions of the further properties *)

Definition newline : ascii := ascii_of_nat 10.

Definition digit (c : ascii) : bool := in_range "0" "9" c.

(** A character of a sanitized name against the one it comes from: the
    same, or an underscore. *)
Definition kept_or_replaced (c d : ascii) : Prop := d = c \/ d = "_"%char.

(** The tree without the names of its entries. *)
Fixpoint skeleton (t : node) : node :=
  match t with
  | File => File
  | Dir es => Dir (map (fun e => ([] : str, skeleton (snd e))) es)
  end.

(** Every name in the tree is valid. *)
Fixpoint all_valid (t : node) : bool :=
  match t with
  | File => true
  | Dir es =>
      forallb (fun e => is_valid_windows_filename (fst e) && all_valid (snd e)) es
  end.

(** The entry of a trace has an invalid name. *)
Definition invalid_entry (v : kind * path) : bool :=
  negb (is_valid_windows_filename (last (snd v) [])).

(** What a round of either loop that ends has done: it took up its entry;
    on a valid name it did nothing more; on an invalid one it logged one
    record, and either left the tree as it was or moved the entry, which
    existed, to a name that did not. *)
Definition round_done (root : path) (k : kind) (old : str) (st st' : state) : Prop :=
  visited st' = visited st ++ [(k, root ++ [old])] /\
  ((is_valid_windows_filename old = true /\ fs st' = fs st /\ log st' = log st) \/
   (is_valid_windows_filename old = false /\
    (exists r, log st' = log st ++ [r]) /\
    (fs st' = fs st \/
     exists new, path_exists (fs st) (root ++ [old]) = true /\
                 path_exists (fs st) (root ++ [new]) = false /\
                 fs st' = update (fs st) root (rename_in old new)))).

(** A tree with two names that sanitize to one. *)
Definition tree_clash : node :=
  Dir [("a b" : str, File); ("a!b" : str, File); ("ok.txt" : str, File)].

(** A tree whose names are all valid. *)
Definition tree_clean : node :=
  Dir [("docs" : str, Dir [("read-me.txt" : str, File)]); (".env" : str, File)].

(** The extension of a sanitized name: nothing, or a period and a run of
    letters, digits and underscores. *)
Definition ext_shape (e : str) : Prop :=
  e = [] \/ exists b, e = "."%char :: b /\ forallb ext_char b = true.

(** The character that [re.sub] reads as an escape in a replacement. *)
Definition backslash : ascii := ascii_of_nat 92.

(** ** The run as a sequence of steps *)

(** The record of a rename that was done, by the kind of the entry. *)
Definition rename_message (k : kind) (old_path new_path : path) : message :=
  match k with
  | KFile => RenamedFile old_path new_path
  | KDir => RenamedDirectory old_path new_path
  end.

(** The f-string of the loop that numbers the candidate of an entry of
    kind [k]. *)
Definition candidate_format (k : kind) (new_name : str) : nat -> str :=
  match k with
  | KFile => file_candidate (fst (splitext new_name)) (snd (splitext new_name))
  | KDir => dir_candidate new_name
  end.

(** [new] is the name on which the collision loop of the entry [old] ends
    in the tree [t]. *)
Definition resolved (t : node) (root : path) (k : kind) (old new : str) : Prop :=
  exists fuel,
    while_exists fuel t root
      (candidate_format k (sanitize_filename old default_replacement))
      (sanitize_filename old default_replacement) 1 = Some new.

(** The path [p] is [d] or lies inside it. *)
Definition below (d p : path) : Prop := exists q, p = d ++ q.

(** From [t] to [t1] the entry [old] of the directory [root] has moved to the
    name [new]: what was found under the old path, with all it holds, is
    found under the new one, which was free; the old path is gone; the
    other names of the directory lead where they led; and so does every
    path of the tree that is not on the way to the directory and does not
    go through the old or the new name. *)
Definition moved (t t1 : node) (root : path) (old new : str) : Prop :=
  (exists c, get t (root ++ [old]) = Some c /\ get t1 (root ++ [new]) = Some c) /\
  get t (root ++ [new]) = None /\
  get t1 (root ++ [old]) = None /\
  (forall x, x <> old -> x <> new -> get t1 (root ++ [x]) = get t (root ++ [x])) /\
  (forall p, ~ below p root -> ~ below (root ++ [old]) p -> ~ below (root ++ [new]) p ->
             get t1 p = get t p).

(** A run over the entries [tr], in that order, from one tree to another,
    with the records it logs.  An entry with a valid name is passed over.
    An entry with an invalid name is found in the tree of that moment under
    the path the trace has for it; its new name is the one its collision
    loop ends on; when the host does not refuse, the entry moves and an
    INFO record is logged; when the host refuses, the tree stays as it is,
    an ERROR record with the two paths and the cause is logged, and the run
    goes on. *)
Inductive run_steps (denied : node -> path -> path -> option OSError)
  : node -> list (kind * path) -> list (level * message) -> node -> Prop :=
| steps_done (t : node) : run_steps denied t [] [] t
| steps_valid (t : node) (k : kind) (root : path) (name : str)
    (tr : list (kind * path)) (lg : list (level * message)) (t' : node) :
    is_valid_windows_filename name = true ->
    run_steps denied t tr lg t' ->
    run_steps denied t ((k, root ++ [name]) :: tr) lg t'
| steps_renamed (t : node) (k : kind) (root : path) (old new : str) (t1 : node)
    (tr : list (kind * path)) (lg : list (level * message)) (t' : node) :
    is_valid_windows_filename old = false ->
    resolved t root k old new ->
    denied t (root ++ [old]) (root ++ [new]) = None ->
    moved t t1 root old new ->
    run_steps denied t1 tr lg t' ->
    run_steps denied t ((k, root ++ [old]) :: tr)
      ((INFO, rename_message k (root ++ [old]) (root ++ [new])) :: lg) t'
| steps_failed (t : node) (k : kind) (root : path) (old new : str) (e : OSError)
    (tr : list (kind * path)) (lg : list (level * message)) (t' : node) :
    is_valid_windows_filename old = false ->
    resolved t root k old new ->
    denied t (root ++ [old]) (root ++ [new]) = Some e ->
    get t (root ++ [old]) <> None ->
    run_steps denied t tr lg t' ->
    run_steps denied t ((k, root ++ [old]) :: tr)
      ((ERROR, FailedToRename (root ++ [old]) (root ++ [new]) e) :: lg) t'.

(** [r] is the record of the entry [v]: of its rename to a name in the same
    directory, done or failed. *)
Definition record_for (v : kind * path) (r : level * message) : Prop :=
  exists root old new,
    snd v = root ++ [old] /\
    (r = (INFO, rename_message (fst v) (root ++ [old]) (root ++ [new])) \/
     exists e, r = (ERROR, FailedToRename (root ++ [old]) (root ++ [new]) e)).

(** What one round does to a directory of distinct names, as steps. *)
Definition round_steps (denied : node -> path -> path -> option OSError)
    (fs0 : node) (top : path) (k : kind) (old : str)
    (es : list (str * node)) (st : state) (r : option state) : Prop :=
  exists st' es' lg,
    r = Some st' /\ fs st' = put fs0 top (Dir es') /\
    NoDup (map fst es') /\
    List.length es' = List.length es /\
    (forall x, In x (map fst es) -> x <> old -> In x (map fst es')) /\
    log st' = log st ++ lg /\
    visited st' = visited st ++ [(k, top ++ [old])] /\
    run_steps denied (fs st) [(k, top ++ [old])] lg (fs st').

(** What a walk of [top] does, as steps. *)
Definition walk_steps_result (denied : node -> path -> path -> option OSError)
    (top : path) (t : node) (st : state) (r : option state) : Prop :=
  exists st' t' lg,
    r = Some st' /\ fs st' = put (fs st) top t' /\
    log st' = log st ++ lg /\
    visited st' = visited st ++ postorder top t /\
    run_steps denied (fs st) (postorder top t) lg (fs st').

(** * Examples of the specification *)

Example sanitize_empty : sanitize_filename "" "_" = "unnamed_file".
Proof. reflexivity. Qed.

Example sanitize_my_file : sanitize_filename "my file!.txt" "_" = "my_file_.txt".
Proof. reflexivity. Qed.

Example sanitize_dots : sanitize_filename "..." "_" = "___".
Proof. reflexivity. Qed.

Example sanitize_con : sanitize_filename "CON.txt" "_" = "CON.txt".
Proof. reflexivity. Qed.

Example valid_con : is_valid_windows_filename "CON.txt" = false.
Proof. reflexivity. Qed.

Example valid_contact : is_valid_windows_filename "CONTACT.txt" = true.
Proof. reflexivity. Qed.

Example valid_env : is_valid_windows_filename ".env" = true.
Proof. reflexivity. Qed.

Example valid_empty : is_valid_windows_filename "" = false.
Proof. reflexivity. Qed.


(** * Strings: basic facts *)

Lemma str_eqb_eq (a b : str) : str_eqb a b = true <-> a = b.
Proof.
  revert b; induction a as [|x a IH]; intros [|y b]; simpl; split;
    try congruence; try reflexivity.
  - intros H. apply andb_true_iff in H as [H1 H2].
    apply Ascii.eqb_eq in H1. apply IH in H2. congruence.
  - intros H. injection H as -> ->.
    rewrite Ascii.eqb_refl. simpl. now apply IH.
Qed.

Lemma str_eqb_refl (a : str) : str_eqb a a = true.
Proof. now apply str_eqb_eq. Qed.

Lemma str_eqb_neq (a b : str) : str_eqb a b = false <-> a <> b.
Proof.
  split.
  - intros H E. apply str_eqb_eq in E. congruence.
  - intros H. destruct (str_eqb a b) eqn:E; [|reflexivity].
    apply str_eqb_eq in E. contradiction.
Qed.

Lemma chr_mem_In (c : ascii) (chars : str) : chr_mem c chars = true <-> In c chars.
Proof.
  unfold chr_mem. rewrite existsb_exists. split.
  - intros (x & Hx & E). apply Ascii.eqb_eq in E. now subst.
  - intros H. exists c. split; [assumption | apply Ascii.eqb_refl].
Qed.

(** ** rfind *)

Lemma rfind_from_spec (p : str) (c : ascii) (i : Z) :
  (0 <= i)%Z ->
  (rfind_from i p c = (-1)%Z /\ ~ In c p) \/
  (exists a b, p = a ++ c :: b /\ ~ In c b /\
               rfind_from i p c = (i + Z.of_nat (List.length a))%Z).
Proof.
  revert i; induction p as [|x p IH]; intros i Hi; simpl.
  - left. split; [reflexivity | tauto].
  - destruct (IH (i + 1)%Z ltac:(lia)) as [[E Hn] | (a & b & -> & Hb & E)];
      rewrite E.
    + change (0 <=? -1)%Z with false. cbv iota.
      destruct (Ascii.eqb_spec x c) as [->|Hx].
      * right. exists [], p. simpl. repeat split; [assumption | lia].
      * left. split; [reflexivity|]. simpl. intros [?|?]; [congruence | tauto].
    + replace (0 <=? i + 1 + Z.of_nat (List.length a))%Z with true
        by (symmetry; apply Z.leb_le; lia).
      right. exists (x :: a), b. simpl List.length. repeat split; [assumption | lia].
Qed.

Lemma last_occurrence_unique (c : ascii) (a a' b b' : str) :
  a ++ c :: b = a' ++ c :: b' -> ~ In c b -> ~ In c b' -> a = a' /\ b = b'.
Proof.
  revert a'; induction a as [|x a IH]; intros [|y a'] E Hb Hb'; simpl in E.
  - injection E as ->. tauto.
  - injection E as <- ->. exfalso. apply Hb. apply in_or_app. right. now left.
  - injection E as -> <-. exfalso. apply Hb'. apply in_or_app. right. now left.
  - injection E as -> E. destruct (IH _ E Hb Hb') as [-> ->]. tauto.
Qed.

Lemma rfind_absent (p : str) (c : ascii) : ~ In c p -> rfind p c = (-1)%Z.
Proof.
  intros H. destruct (rfind_from_spec p c 0 ltac:(lia)) as [[E _] | (a & b & -> & _ & _)].
  - exact E.
  - exfalso. apply H. apply in_or_app. right. now left.
Qed.

Lemma rfind_last (a b : str) (c : ascii) :
  ~ In c b -> rfind (a ++ c :: b) c = Z.of_nat (List.length a).
Proof.
  intros Hb.
  destruct (rfind_from_spec (a ++ c :: b) c 0 ltac:(lia))
    as [[_ Hn] | (a' & b' & E & Hb' & R)].
  - exfalso. apply Hn. apply in_or_app. right. now left.
  - destruct (last_occurrence_unique _ _ _ _ _ E Hb Hb') as [-> ->].
    unfold rfind. rewrite R. lia.
Qed.

Lemma rfind_cases (p : str) (c : ascii) :
  (~ In c p /\ rfind p c = (-1)%Z) \/
  (exists a b, p = a ++ c :: b /\ ~ In c b /\ rfind p c = Z.of_nat (List.length a)).
Proof.
  destruct (rfind_from_spec p c 0 ltac:(lia)) as [[E Hn] | (a & b & E & Hb & R)].
  - left. tauto.
  - right. exists a, b. repeat split; assumption.
Qed.

(** ** Slices *)

Lemma slice_one (a rest : str) (x : ascii) :
  slice (a ++ x :: rest) (Z.of_nat (List.length a)) (Z.of_nat (List.length a) + 1) = [x].
Proof.
  unfold slice.
  replace (Z.to_nat (Z.of_nat (List.length a) + 1 - Z.of_nat (List.length a))) with 1%nat by lia.
  rewrite Nat2Z.id, skipn_app, skipn_all, Nat.sub_diag. reflexivity.
Qed.

Lemma slice_to_app (a b : str) : slice_to (a ++ b) (Z.of_nat (List.length a)) = a.
Proof.
  unfold slice_to. rewrite Nat2Z.id, firstn_app, firstn_all, Nat.sub_diag.
  simpl. apply app_nil_r.
Qed.

Lemma slice_from_app (a b : str) : slice_from (a ++ b) (Z.of_nat (List.length a)) = b.
Proof.
  unfold slice_from. rewrite Nat2Z.id, skipn_app, skipn_all, Nat.sub_diag. reflexivity.
Qed.

(** ** splitext *)

(** The loop, on a string cut at the index where it starts and at the last
    period. *)
Lemma skip_leading_dots_spec (a1 a2 b : str) :
  skip_leading_dots (List.length a2) (a1 ++ a2 ++ "."%char :: b) "."
    (Z.of_nat (List.length a1)) (Z.of_nat (List.length (a1 ++ a2))) =
  if all_dots a2 then (a1 ++ a2 ++ "."%char :: b, [])
  else (a1 ++ a2, "."%char :: b).
Proof.
  revert a1; induction a2 as [|x a2 IH]; intros a1.
  - reflexivity.
  - cbn [List.length skip_leading_dots all_dots forallb].
    change ((x :: a2) ++ "."%char :: b) with (x :: a2 ++ "."%char :: b).
    rewrite slice_one. cbn [str_eqb]. rewrite andb_true_r.
    destruct (Ascii.eqb x ".") eqn:Ex; cbn [negb andb].
    + specialize (IH (a1 ++ [x])).
      rewrite <- !app_assoc in IH. cbn [app] in IH.
      rewrite !length_app in IH. cbn [List.length] in IH.
      rewrite !length_app. cbn [List.length].
      replace (Z.of_nat (List.length a1) + 1)%Z with (Z.of_nat (List.length a1 + 1)) by lia.
      exact IH.
    + replace (a1 ++ x :: a2 ++ "."%char :: b) with ((a1 ++ x :: a2) ++ "."%char :: b)
        by (rewrite <- app_assoc; reflexivity).
      now rewrite slice_to_app, slice_from_app.
Qed.

(** The name has no separator: the split is at the last period unless only
    periods come before it. *)
Lemma splitext_no_sep (a b : str) :
  ~ In "/"%char (a ++ "."%char :: b) -> ~ In "."%char b ->
  splitext (a ++ "."%char :: b) =
  if all_dots a then (a ++ "."%char :: b, []) else (a, "."%char :: b).
Proof.
  intros Hs Hb. unfold splitext, _splitext.
  rewrite (rfind_absent _ _ Hs), (rfind_last _ _ _ Hb). cbv zeta.
  replace (Z.of_nat (List.length a) >? -1)%Z with true by (symmetry; apply Z.gtb_lt; lia).
  change (-1 + 1)%Z with 0%Z.
  replace (Z.to_nat (Z.of_nat (List.length a) - 0)) with (List.length a) by lia.
  exact (skip_leading_dots_spec [] a b).
Qed.

Lemma splitext_no_dot (p : str) : ~ In "."%char p -> splitext p = (p, []).
Proof.
  intros H. unfold splitext, _splitext. rewrite (rfind_absent _ _ H).
  destruct (rfind_cases p "/") as [[_ ->] | (a & b & _ & _ & ->)].
  - reflexivity.
  - replace (-1 >? Z.of_nat (List.length a))%Z with false; [reflexivity|].
    symmetry. rewrite Z.gtb_ltb. apply Z.ltb_ge. lia.
Qed.

Lemma app_cons_compare (x y : ascii) (a b a' b' : str) :
  a ++ x :: b = a' ++ y :: b' ->
  (exists m, a' = a ++ x :: m /\ b = m ++ y :: b') \/
  (a = a' /\ x = y /\ b = b') \/
  (exists m, a = a' ++ y :: m /\ b' = m ++ x :: b).
Proof.
  revert a'; induction a as [|z a IH]; intros [|z' a'] E; simpl in E.
  - injection E as -> ->. right. left. tauto.
  - injection E as -> ->. left. now exists a'.
  - injection E as -> <-. right. right. now exists a.
  - injection E as -> E.
    destruct (IH _ E) as [(m & -> & ->) | [(-> & -> & ->) | (m & -> & ->)]].
    + left. now exists m.
    + right. left. tauto.
    + right. right. now exists m.
Qed.

Lemma basename_no_sep (p : str) : ~ In "/"%char p -> basename p = p.
Proof. intros H. unfold basename. now rewrite (rfind_absent _ _ H). Qed.

Lemma basename_after_sep (a b : str) :
  ~ In "/"%char b -> basename (a ++ "/"%char :: b) = b.
Proof.
  intros H. unfold basename. rewrite (rfind_last _ _ _ H).
  replace (a ++ "/"%char :: b) with ((a ++ ["/"%char]) ++ b)
    by (rewrite <- app_assoc; reflexivity).
  replace (Z.of_nat (List.length a) + 1)%Z with (Z.of_nat (List.length (a ++ ["/"%char])))
    by (rewrite length_app; simpl; lia).
  apply slice_from_app.
Qed.

(** Every string is a directory part, empty or ending in the separator,
    followed by its base name, which has no separator. *)
Lemma basename_split (p : str) :
  exists pre, p = pre ++ basename p /\
              (pre = [] \/ exists a, pre = a ++ ["/"%char]) /\
              ~ In "/"%char (basename p).
Proof.
  destruct (rfind_cases p "/") as [[H _] | (a & b & -> & Hb & _)].
  - exists []. rewrite (basename_no_sep _ H). auto.
  - exists (a ++ ["/"%char]). rewrite (basename_after_sep _ _ Hb).
    rewrite <- app_assoc. repeat split; eauto.
Qed.

Lemma splitext_after_sep (a base : str) :
  ~ In "/"%char base ->
  splitext (a ++ "/"%char :: base) =
  (a ++ "/"%char :: fst (splitext base), snd (splitext base)).
Proof.
  intros Hs.
  destruct (rfind_cases base ".") as [[Hd _] | (a2 & b & -> & Hb & _)].
  - rewrite (splitext_no_dot _ Hd). simpl.
    unfold splitext, _splitext. rewrite (rfind_last _ _ _ Hs). cbv zeta.
    destruct (rfind_cases (a ++ "/"%char :: base) ".") as [[_ ->] | (a1 & b1 & E & Hb1 & ->)].
    + replace (-1 >? Z.of_nat (List.length a))%Z with false; [reflexivity|].
      symmetry. rewrite Z.gtb_ltb. apply Z.ltb_ge. lia.
    + replace (Z.of_nat (List.length a1) >? Z.of_nat (List.length a))%Z with false;
        [reflexivity|].
      symmetry. rewrite Z.gtb_ltb. apply Z.ltb_ge.
      symmetry in E.
      destruct (app_cons_compare _ _ _ _ _ _ E) as [(m & -> & ->) | [(_ & Ex & _) | (m & -> & ->)]].
      * rewrite length_app. simpl. lia.
      * discriminate Ex.
      * exfalso. apply Hd. apply in_or_app. right. now left.
  - rewrite (splitext_no_sep _ _ Hs Hb).
    unfold splitext, _splitext.
    replace (a ++ "/"%char :: a2 ++ "."%char :: b)
      with ((a ++ "/"%char :: a2) ++ "."%char :: b)
      by (rewrite <- app_assoc; reflexivity).
    rewrite (rfind_last _ _ _ Hb).
    replace ((a ++ "/"%char :: a2) ++ "."%char :: b)
      with (a ++ "/"%char :: a2 ++ "."%char :: b)
      by (rewrite <- app_assoc; reflexivity).
    rewrite (rfind_last _ _ _ Hs). cbv zeta.
    rewrite length_app. cbn [List.length].
    replace (Z.of_nat (List.length a + S (List.length a2)) >? Z.of_nat (List.length a))%Z
      with true by (symmetry; apply Z.gtb_lt; lia).
    replace (Z.to_nat (Z.of_nat (List.length a + S (List.length a2))
                       - (Z.of_nat (List.length a) + 1))) with (List.length a2) by lia.
    pose proof (skip_leading_dots_spec (a ++ ["/"%char]) a2 b) as H.
    rewrite <- !app_assoc in H. cbn [app] in H.
    rewrite !length_app in H. cbn [List.length] in H.
    replace (Z.of_nat (List.length a) + 1)%Z with (Z.of_nat (List.length a + 1)) by lia.
    rewrite H. now destruct (all_dots a2).
Qed.

(** [splitext] works on the base name and leaves the directory part in the
    root. *)
Lemma splitext_basename (pre base : str) :
  pre = [] \/ (exists a, pre = a ++ ["/"%char]) -> ~ In "/"%char base ->
  splitext (pre ++ base) = (pre ++ fst (splitext base), snd (splitext base)).
Proof.
  intros [-> | (a & ->)] Hs.
  - simpl. now destruct (splitext base).
  - rewrite <- !app_assoc. simpl. now apply splitext_after_sep.
Qed.

Lemma all_dots_lstrip (a r : str) :
  all_dots a = true -> lstrip "." (a ++ r) = lstrip "." r.
Proof.
  induction a as [|x a IH]; simpl; [reflexivity|].
  intros H. apply andb_true_iff in H as [Hx Ha]. rewrite Hx. simpl. auto.
Qed.

Lemma not_all_dots_lstrip (a r : str) :
  all_dots a = false -> lstrip "." (a ++ r) = lstrip "." a ++ r.
Proof.
  induction a as [|x a IH]; simpl; [discriminate|].
  destruct (Ascii.eqb x "."); simpl; auto.
Qed.

Lemma lstrip_incl (chars s : str) (c : ascii) : In c (lstrip chars s) -> In c s.
Proof.
  induction s as [|x s IH]; simpl; [tauto|].
  destruct (chr_mem x chars); simpl; tauto.
Qed.

(** The two outcomes of [splitext] on a name with no separator. *)
Lemma splitext_base_cases (base : str) :
  ~ In "/"%char base ->
  (splitext base = (base, []) /\ ~ In "."%char (lstrip "." base)) \/
  (exists a b, base = a ++ "."%char :: b /\ ~ In "."%char b /\
               all_dots a = false /\ splitext base = (a, "."%char :: b) /\
               In "."%char (lstrip "." base)).
Proof.
  intros Hs.
  destruct (rfind_cases base ".") as [[Hd _] | (a & b & -> & Hb & _)].
  - left. split; [now apply splitext_no_dot|].
    intros H. apply Hd. eapply lstrip_incl, H.
  - rewrite (splitext_no_sep _ _ Hs Hb).
    destruct (all_dots a) eqn:Ea.
    + left. split; [reflexivity|].
      rewrite (all_dots_lstrip _ _ Ea).
      change (lstrip "." ("."%char :: b)) with (lstrip "." b).
      intros H. apply Hb. eapply lstrip_incl, H.
    + right. exists a, b. repeat split; try assumption.
      rewrite (not_all_dots_lstrip _ _ Ea). apply in_or_app. right. now left.
Qed.

Lemma splitext_cases (p : str) :
  splitext p = (p, []) \/
  exists a b, p = a ++ "."%char :: b /\ ~ In "."%char b /\
              splitext p = (a, "."%char :: b).
Proof.
  destruct (basename_split p) as (pre & E & Hpre & Hs).
  remember (basename p) as base eqn:Eb. clear Eb. subst p.
  rewrite (splitext_basename _ _ Hpre Hs).
  destruct (splitext_base_cases _ Hs) as [[-> _] | (a & b & Eb & Hb & _ & -> & _)].
  - left. reflexivity.
  - right. exists (pre ++ a), b. simpl. subst base.
    rewrite <- app_assoc. repeat split; assumption.
Qed.

(** * The sanitizer and the validator *)

Lemma name_char_facts (c : ascii) :
  name_char c = true -> c <> "."%char /\ c <> " "%char /\ c <> "/"%char.
Proof.
  destruct c as [[] [] [] [] [] [] [] []]; vm_compute; intros H;
    try discriminate H; repeat split; discriminate.
Qed.

Lemma ext_char_facts (c : ascii) :
  ext_char c = true -> c <> "."%char /\ c <> "/"%char.
Proof.
  destruct c as [[] [] [] [] [] [] [] []]; vm_compute; intros H;
    try discriminate H; repeat split; discriminate.
Qed.

Lemma re_sub_cons (cls : ascii -> bool) (r : str) (c : ascii) (s : str) :
  re_sub cls r (c :: s) = re_sub cls r [c] ++ re_sub cls r s.
Proof. unfold re_sub. cbn [flat_map]. now rewrite app_nil_r. Qed.

Lemma ext_class_underscore (c : ascii) :
  ext_char c = true -> re_sub ext_class "_" [c] = [c].
Proof.
  destruct c as [[] [] [] [] [] [] [] []]; vm_compute; intros H;
    try discriminate H; reflexivity.
Qed.

Lemma ext_class_result (c : ascii) :
  c <> "."%char -> forallb ext_char (re_sub ext_class "_" [c]) = true.
Proof.
  destruct c as [[] [] [] [] [] [] [] []]; vm_compute; intros H;
    try reflexivity; now contradiction H.
Qed.

Lemma name_class_result (c : ascii) :
  forallb name_char (re_sub name_class "_" [c]) = true.
Proof. destruct c as [[] [] [] [] [] [] [] []]; reflexivity. Qed.

Lemma forallb_not_In (f : ascii -> bool) (x : ascii) (s : str) :
  (forall c, f c = true -> c <> x) -> forallb f s = true -> ~ In x s.
Proof.
  intros Hf Hs Hin. rewrite forallb_forall in Hs.
  exact (Hf _ (Hs _ Hin) eq_refl).
Qed.

Lemma re_sub_name_chars (s : str) :
  forallb name_char (re_sub name_class "_" s) = true.
Proof.
  induction s as [|c s IH]; [reflexivity|].
  rewrite re_sub_cons, forallb_app, IH, name_class_result. reflexivity.
Qed.

Lemma re_sub_name_id (r s : str) :
  forallb name_char s = true -> re_sub name_class r s = s.
Proof.
  unfold re_sub, name_char. induction s as [|c s IH]; [reflexivity|].
  cbn [forallb flat_map]. intros H. apply andb_true_iff in H as [Hc Hs].
  apply negb_true_iff in Hc. rewrite Hc, (IH Hs). reflexivity.
Qed.

Lemma re_sub_ext_chars (s : str) :
  ~ In "."%char s -> forallb ext_char (re_sub ext_class "_" s) = true.
Proof.
  induction s as [|c s IH]; [reflexivity|].
  intros H. rewrite re_sub_cons, forallb_app, IH, ext_class_result.
  - reflexivity.
  - intros ->. apply H. now left.
  - intros Hs. apply H. now right.
Qed.

Lemma re_sub_ext_id (s : str) :
  forallb ext_char s = true -> re_sub ext_class "_" s = s.
Proof.
  induction s as [|c s IH]; [reflexivity|].
  cbn [forallb]. intros H. apply andb_true_iff in H as [Hc Hs].
  rewrite re_sub_cons, (ext_class_underscore _ Hc), (IH Hs). reflexivity.
Qed.

Lemma lstrip_head (chars s : str) :
  (forall c, In c s -> chr_mem c chars = false) -> lstrip chars s = s.
Proof.
  destruct s as [|c s]; [reflexivity|]. intros H. simpl.
  now rewrite (H c (or_introl eq_refl)).
Qed.

Lemma strip_id (chars s : str) :
  (forall c, In c s -> chr_mem c chars = false) -> strip chars s = s.
Proof.
  intros H. unfold strip, rstrip. rewrite (lstrip_head _ _ H), lstrip_head.
  - apply rev_involutive.
  - intros c Hc. apply H. now apply in_rev.
Qed.

Lemma strip_name_chars (s : str) :
  forallb name_char s = true -> strip " ." s = s.
Proof.
  intros H. apply strip_id. intros c Hc.
  rewrite forallb_forall in H. destruct (name_char_facts c (H c Hc)) as (Hd & Hsp & _).
  destruct (chr_mem c " .") eqn:E; [|reflexivity].
  apply chr_mem_In in E. simpl in E. intuition congruence.
Qed.

Lemma sanitize_filename_parts (filename replacement : str) :
  sanitize_filename filename replacement =
  sanitized_name replacement (fst (splitext filename))
  ++ sanitized_ext replacement (snd (splitext filename)).
Proof.
  unfold sanitize_filename, sanitized_name, sanitized_ext.
  destruct (splitext filename) as [name ext]. cbn [fst snd].
  destruct (strip " ." (re_sub name_class replacement name)); destruct ext; reflexivity.
Qed.

Lemma sanitized_name_nonempty (replacement name : str) :
  sanitized_name replacement name <> [].
Proof.
  unfold sanitized_name.
  destruct (strip " ." (re_sub name_class replacement name)); discriminate.
Qed.

Lemma sanitized_name_chars (name : str) :
  forallb name_char (sanitized_name "_" name) = true.
Proof.
  unfold sanitized_name.
  rewrite (strip_name_chars _ (re_sub_name_chars name)).
  pose proof (re_sub_name_chars name) as H.
  destruct (re_sub name_class "_" name); [reflexivity | exact H].
Qed.

Lemma sanitized_name_fix (s : str) :
  s <> [] -> forallb name_char s = true -> sanitized_name "_" s = s.
Proof.
  intros Hne H. unfold sanitized_name.
  rewrite (re_sub_name_id _ _ H), (strip_name_chars _ H).
  destruct s; [contradiction | reflexivity].
Qed.

Lemma name_chars_not_all_dots (s : str) :
  s <> [] -> forallb name_char s = true -> all_dots s = false.
Proof.
  destruct s as [|c s]; [contradiction|]. intros _ H. simpl in *.
  apply andb_true_iff in H as [Hc _].
  destruct (name_char_facts c Hc) as (Hd & _).
  apply Ascii.eqb_neq in Hd. now rewrite Hd.
Qed.

(** [sanitize_filename] of a name it has built gives the name back. *)
Lemma sanitize_shape_fix (s e : str) :
  s <> [] -> forallb name_char s = true -> forallb ext_char e = true ->
  sanitize_filename (s ++ "."%char :: e) "_" = s ++ "."%char :: e.
Proof.
  intros Hne Hs He.
  assert (Hdot : ~ In "."%char e).
  { apply (forallb_not_In ext_char); [|assumption]. intros c Hc. apply (ext_char_facts c Hc). }
  assert (Hsep : ~ In "/"%char (s ++ "."%char :: e)).
  { intros H. apply in_app_or in H as [H | [H | H]].
    - revert H. apply (forallb_not_In name_char); [|assumption].
      intros c Hc. apply (name_char_facts c Hc).
    - discriminate H.
    - revert H. apply (forallb_not_In ext_char); [|assumption].
      intros c Hc. apply (ext_char_facts c Hc). }
  rewrite sanitize_filename_parts, (splitext_no_sep _ _ Hsep Hdot).
  rewrite (name_chars_not_all_dots _ Hne Hs). cbn [fst snd].
  rewrite (sanitized_name_fix _ Hne Hs). f_equal.
  unfold sanitized_ext. rewrite re_sub_cons, (re_sub_ext_id _ He). reflexivity.
Qed.

Lemma sanitize_plain_fix (s : str) :
  s <> [] -> forallb name_char s = true -> sanitize_filename s "_" = s.
Proof.
  intros Hne Hs.
  assert (Hdot : ~ In "."%char s).
  { apply (forallb_not_In name_char); [|assumption]. intros c Hc. apply (name_char_facts c Hc). }
  rewrite sanitize_filename_parts, (splitext_no_dot _ Hdot). cbn [fst snd].
  rewrite (sanitized_name_fix _ Hne Hs). apply app_nil_r.
Qed.

(** The shape of every result of [sanitize_filename] with the default
    replacement: a non-empty run of name characters, then nothing or a
    period and a run of extension characters. *)
Lemma sanitize_shape (n : str) :
  exists s, s <> [] /\ forallb name_char s = true /\
    (sanitize_filename n "_" = s \/
     exists e, forallb ext_char e = true /\ sanitize_filename n "_" = s ++ "."%char :: e).
Proof.
  exists (sanitized_name "_" (fst (splitext n))).
  split; [apply sanitized_name_nonempty|]. split; [apply sanitized_name_chars|].
  rewrite sanitize_filename_parts.
  destruct (splitext_cases n) as [-> | (a & b & _ & Hb & ->)]; cbn [fst snd].
  - left. apply app_nil_r.
  - right. exists (re_sub ext_class "_" b). split; [now apply re_sub_ext_chars|].
    reflexivity.
Qed.

(** A sanitized name splits where it was joined: its stem is the sanitized
    stem and its extension the sanitized extension. *)
Lemma splitext_sanitize_filename (n : str) :
  splitext (sanitize_filename n "_")
  = (sanitized_name "_" (fst (splitext n)), sanitized_ext "_" (snd (splitext n))).
Proof.
  rewrite sanitize_filename_parts.
  pose proof (sanitized_name_nonempty "_" (fst (splitext n))) as Hne.
  pose proof (sanitized_name_chars (fst (splitext n))) as Hs.
  assert (Hnd : ~ In "."%char (sanitized_name "_" (fst (splitext n)))).
  { apply (forallb_not_In name_char); [|assumption]. intros c Hc. apply (name_char_facts c Hc). }
  assert (Hns : ~ In "/"%char (sanitized_name "_" (fst (splitext n)))).
  { apply (forallb_not_In name_char); [|assumption]. intros c Hc. apply (name_char_facts c Hc). }
  destruct (splitext_cases n) as [E | (a & b & _ & Hb & E)]; rewrite E in *;
    cbn [fst snd] in *.
  - cbn [sanitized_ext]. rewrite app_nil_r. now apply splitext_no_dot.
  - unfold sanitized_ext. rewrite re_sub_cons.
    change (re_sub ext_class "_" ["."%char]) with ["."%char]. cbn [app].
    pose proof (re_sub_ext_chars _ Hb) as He.
    rewrite splitext_no_sep.
    + now rewrite (name_chars_not_all_dots _ Hne Hs).
    + intros H. apply in_app_or in H as [H | [H | H]]; [tauto | discriminate H |].
      revert H. apply (forallb_not_In ext_char); [|assumption].
      intros c Hc. apply (ext_char_facts c Hc).
    + apply (forallb_not_In ext_char); [|assumption].
      intros c Hc. apply (ext_char_facts c Hc).
Qed.

(** * Claims on the sanitizer and the validator *)

(** C8.  [sanitize_filename] with the default replacement is total and never
    returns the empty string: on every input, the empty one included, the
    result has a first character. *)
Theorem sanitize_filename_nonempty (n : str) :
  exists c s, sanitize_filename n default_replacement = c :: s.
Proof.
  rewrite sanitize_filename_parts.
  pose proof (sanitized_name_nonempty default_replacement (fst (splitext n))) as H.
  destruct (sanitized_name default_replacement (fst (splitext n))) as [|c s];
    [contradiction | simpl; eauto].
Qed.

(** C9.  [sanitize_filename] with the default replacement is idempotent: a
    second application changes nothing. *)
Theorem sanitize_filename_idempotent (n : str) :
  sanitize_filename (sanitize_filename n default_replacement) default_replacement
  = sanitize_filename n default_replacement.
Proof.
  unfold default_replacement.
  destruct (sanitize_shape n) as (s & Hne & Hs & [-> | (e & He & ->)]).
  - now apply sanitize_plain_fix.
  - now apply sanitize_shape_fix.
Qed.

(** C2, as stated, fails on a hidden-style name: [.env] contains a period,
    yet its extension is empty and its period is replaced as part of the
    name. *)
Lemma splitext_hidden_name :
  In "."%char (".env" : str) /\ snd (splitext ".env") = [] /\
  sanitize_filename ".env" default_replacement = "_env".
Proof. repeat split. now left. Qed.

(** C2, amended.  [sanitize_filename] splits the name as [os.path.splitext]
    does.  The two parts make up the name; the extension, when it is not
    empty, starts at the last period of the name; it is empty exactly when
    the base name, its leading periods set aside, has no period; and the
    replacement rules are applied to the two parts separately. *)
Theorem sanitize_filename_split (n replacement : str) :
  let name := fst (splitext n) in
  let ext := snd (splitext n) in
  name ++ ext = n /\
  (ext = [] \/ exists e, ext = "."%char :: e /\ ~ In "."%char e) /\
  (ext = [] <-> ~ In "."%char (lstrip "." (basename n))) /\
  sanitize_filename n replacement
  = sanitized_name replacement name ++ sanitized_ext replacement ext.
Proof.
  cbv zeta. split; [|split; [|split]].
  - destruct (splitext_cases n) as [-> | (a & b & E & _ & ->)]; cbn [fst snd].
    + apply app_nil_r.
    + now symmetry.
  - destruct (splitext_cases n) as [-> | (a & b & _ & Hb & ->)]; cbn [fst snd].
    + now left.
    + right. now exists b.
  - destruct (basename_split n) as (pre & E & Hpre & Hs).
    remember (basename n) as base eqn:Eb. clear Eb. subst n.
    rewrite (splitext_basename _ _ Hpre Hs). cbn [snd].
    destruct (splitext_base_cases _ Hs) as [[-> Hd] | (a & b & _ & _ & _ & -> & Hd)];
      cbn [snd].
    + tauto.
    + split; [discriminate | tauto].
  - apply sanitize_filename_parts.
Qed.

(** C3, as stated, fails on the empty name: all its characters are allowed,
    its stem is not reserved and it ends with neither a space nor a period,
    but the pattern asks for one character at least. *)
Lemma valid_rejects_empty_name :
  forallb allowed_class ("" : str) = true /\
  str_mem (upper (fst (splitext ""))) reserved_names = false /\
  endswith "" " " = false /\ endswith "" "." = false /\
  is_valid_windows_filename "" = false.
Proof. repeat split. Qed.

Lemma span_all (cls : ascii -> bool) (s : str) :
  forallb cls s = true -> span cls s = (s, []).
Proof.
  induction s as [|c s IH]; [reflexivity|]. simpl.
  intros H. apply andb_true_iff in H as [-> Hs]. now rewrite (IH Hs).
Qed.

(** C3, amended.  A non-empty name made of ASCII letters, digits,
    underscores, hyphens and periods, whose upper-cased stem is not reserved
    and which ends with neither a space nor a period, is valid. *)
Theorem allowed_name_is_valid (n : str) :
  n <> [] ->
  forallb allowed_class n = true ->
  str_mem (upper (fst (splitext n))) reserved_names = false ->
  endswith n " " = false ->
  endswith n "." = false ->
  is_valid_windows_filename n = true.
Proof.
  intros Hne Hall Hres Hsp Hdot. unfold is_valid_windows_filename. cbv zeta.
  rewrite Hres, Hsp, Hdot. cbn [orb].
  unfold re_match_plus. rewrite (span_all _ _ Hall).
  destruct n; [contradiction | reflexivity].
Qed.

Lemma allowed_name_is_valid_witness :
  is_valid_windows_filename "read-me_2.txt" = true.
Proof.
  apply allowed_name_is_valid; [discriminate | reflexivity ..].
Defined.

(** * The file system: lookups and updates *)


Lemma lookup_In (n : str) (es : list (str * node)) (c : node) :
  lookup n es = Some c -> In n (map fst es).
Proof.
  induction es as [|[m d] es IH]; simpl; [discriminate|].
  destruct (str_eqb n m) eqn:E.
  - apply str_eqb_eq in E. auto.
  - auto.
Qed.

Lemma lookup_None (n : str) (es : list (str * node)) :
  lookup n es = None <-> ~ In n (map fst es).
Proof.
  induction es as [|[m d] es IH]; simpl; [tauto|].
  destruct (str_eqb n m) eqn:E.
  - apply str_eqb_eq in E. split; [discriminate | intros H; exfalso; auto].
  - apply str_eqb_neq in E. rewrite IH. intuition congruence.
Qed.

Lemma lookup_app_notin (n : str) (pre suf : list (str * node)) :
  ~ In n (map fst pre) -> lookup n (pre ++ suf) = lookup n suf.
Proof.
  induction pre as [|[m d] pre IH]; simpl; [reflexivity|].
  intros H. destruct (str_eqb n m) eqn:E.
  - apply str_eqb_eq in E. exfalso. auto.
  - auto.
Qed.

Lemma lookup_head (n : str) (c : node) (es : list (str * node)) :
  lookup n ((n, c) :: es) = Some c.
Proof. simpl. now rewrite str_eqb_refl. Qed.

Lemma map_entry_app_notin (n : str) (f : node -> node) (pre suf : list (str * node)) :
  ~ In n (map fst pre) -> map_entry n f (pre ++ suf) = pre ++ map_entry n f suf.
Proof.
  induction pre as [|[m d] pre IH]; simpl; [reflexivity|].
  intros H. destruct (str_eqb n m) eqn:E.
  - apply str_eqb_eq in E. exfalso. auto.
  - rewrite IH; auto.
Qed.

Lemma map_entry_head (n : str) (f : node -> node) (c : node) (es : list (str * node)) :
  map_entry n f ((n, c) :: es) = (n, f c) :: es.
Proof. simpl. now rewrite str_eqb_refl. Qed.

Lemma map_entry_ext (n : str) (f g : node -> node) (es : list (str * node)) :
  (forall c, f c = g c) -> map_entry n f es = map_entry n g es.
Proof.
  intros H. induction es as [|[m d] es IH]; simpl; [reflexivity|].
  destruct (str_eqb n m); [now rewrite H | now rewrite IH].
Qed.

Lemma map_entry_twice (n : str) (f g : node -> node) (es : list (str * node)) :
  map_entry n g (map_entry n f es) = map_entry n (fun c => g (f c)) es.
Proof.
  induction es as [|[m d] es IH]; simpl; [reflexivity|].
  destruct (str_eqb n m) eqn:E; simpl; rewrite E; [reflexivity | now rewrite IH].
Qed.

Lemma lookup_map_entry (n : str) (f : node -> node) (es : list (str * node)) (c : node) :
  lookup n es = Some c -> lookup n (map_entry n f es) = Some (f c).
Proof.
  induction es as [|[m d] es IH]; simpl; [discriminate|].
  destruct (str_eqb n m) eqn:E; simpl; rewrite E; [congruence | assumption].
Qed.

Lemma map_entry_id (n : str) (f : node -> node) (es : list (str * node)) (c : node) :
  lookup n es = Some c -> f c = c -> map_entry n f es = es.
Proof.
  induction es as [|[m d] es IH]; simpl; [reflexivity|].
  destruct (str_eqb n m) eqn:E.
  - intros [= ->] ->. reflexivity.
  - intros H1 H2. now rewrite IH.
Qed.

Lemma get_app (t : node) (p q : path) :
  get t (p ++ q) = match get t p with Some c => get c q | None => None end.
Proof.
  revert t; induction p as [|n p IH]; intros t; simpl; [reflexivity|].
  destruct t as [|es]; [reflexivity|]. destruct (lookup n es); auto.
Qed.

Lemma update_app (t : node) (p q : path) (f : node -> node) :
  update t (p ++ q) f = update t p (fun c => update c q f).
Proof.
  revert t; induction p as [|n p IH]; intros t; simpl; [reflexivity|].
  destruct t as [|es]; [reflexivity|]. f_equal. apply map_entry_ext. auto.
Qed.

Lemma update_ext (t : node) (p : path) (f g : node -> node) :
  (forall c, f c = g c) -> update t p f = update t p g.
Proof.
  intros H. revert t; induction p as [|n p IH]; intros t; simpl; [apply H|].
  destruct t as [|es]; [reflexivity|]. f_equal. apply map_entry_ext. auto.
Qed.

Lemma update_twice (t : node) (p : path) (f g : node -> node) :
  update (update t p f) p g = update t p (fun c => g (f c)).
Proof.
  revert t; induction p as [|n p IH]; intros t; simpl; [reflexivity|].
  destruct t as [|es]; [reflexivity|]. f_equal.
  rewrite map_entry_twice. apply map_entry_ext. auto.
Qed.

Lemma get_update (t : node) (p : path) (f : node -> node) (c : node) :
  get t p = Some c -> get (update t p f) p = Some (f c).
Proof.
  revert t; induction p as [|n p IH]; intros t; simpl; [congruence|].
  destruct t as [|es]; [discriminate|].
  destruct (lookup n es) as [d|] eqn:E; [|discriminate].
  intros H. rewrite (lookup_map_entry _ _ _ _ E). auto.
Qed.

Lemma put_same (t : node) (p : path) (c : node) :
  get t p = Some c -> put t p c = t.
Proof.
  unfold put. revert t; induction p as [|n p IH]; intros t; simpl; [congruence|].
  destruct t as [|es]; [reflexivity|].
  destruct (lookup n es) as [d|] eqn:E; [|discriminate].
  intros H. f_equal. eapply map_entry_id; eauto.
Qed.

(** Below a replaced subtree one sees the replacement. *)
Lemma get_put_below (t : node) (top q : path) (c c0 : node) :
  get t top = Some c0 -> get (put t top c) (top ++ q) = get c q.
Proof.
  intros H. unfold put. rewrite get_app, (get_update _ _ _ _ H). reflexivity.
Qed.

(** An update below a replaced subtree is an update of the replacement. *)
Lemma update_put_below (t : node) (top q : path) (c : node) (f : node -> node) :
  update (put t top c) (top ++ q) f = put t top (update c q f).
Proof. unfold put. rewrite update_app, update_twice. reflexivity. Qed.

Lemma path_exists_lookup (t : node) (root : path) (es : list (str * node)) (x : str) :
  get t root = Some (Dir es) ->
  path_exists t (root ++ [x]) = match lookup x es with Some _ => true | None => false end.
Proof.
  intros H. unfold path_exists. rewrite get_app, H. simpl.
  now destruct (lookup x es).
Qed.

Lemma path_exists_listing (t : node) (root : path) (x : str) :
  path_exists t (root ++ [x]) = true -> In x (listing t root).
Proof.
  unfold path_exists, listing. rewrite get_app.
  destruct (get t root) as [[|es]|]; simpl; try discriminate.
  destruct (lookup x es) eqn:E; [|discriminate].
  intros _. eapply lookup_In; eauto.
Qed.

Lemma listing_put (t : node) (top : path) (c0 : node) (es : list (str * node)) :
  get t top = Some c0 -> listing (put t top (Dir es)) top = map fst es.
Proof.
  intros H. unfold listing, put. now rewrite (get_update _ _ _ _ H).
Qed.

(** ** Renaming an entry *)

Lemma rename_entry_length (old new : str) (es : list (str * node)) :
  List.length (rename_entry old new es) = List.length es.
Proof.
  induction es as [|[m d] es IH]; simpl; [reflexivity|].
  destruct (str_eqb old m); simpl; auto.
Qed.

Lemma lookup_rename_new (old new : str) (es : list (str * node)) (c : node) :
  lookup old es = Some c -> ~ In new (map fst es) ->
  lookup new (rename_entry old new es) = Some c.
Proof.
  induction es as [|[m d] es IH]; simpl; [discriminate|].
  intros H Hn. destruct (str_eqb old m) eqn:E; simpl.
  - rewrite str_eqb_refl. exact H.
  - destruct (str_eqb new m) eqn:E'.
    + apply str_eqb_eq in E'. exfalso. auto.
    + auto.
Qed.

Lemma lookup_rename_old (old new : str) (es : list (str * node)) :
  NoDup (map fst es) -> old <> new ->
  lookup old (rename_entry old new es) = None.
Proof.
  induction es as [|[m d] es IH]; simpl; [reflexivity|].
  intros H Hne. inversion H as [|? ? Hm Hes]; subst.
  destruct (str_eqb old m) eqn:E; simpl.
  - apply str_eqb_eq in E. subst m.
    apply str_eqb_neq in Hne. rewrite Hne. now apply lookup_None.
  - rewrite E. auto.
Qed.

Lemma nodupb_NoDup (l : list str) : nodupb l = true <-> NoDup l.
Proof.
  induction l as [|x l IH]; simpl.
  - split; [constructor | reflexivity].
  - rewrite andb_true_iff, negb_true_iff, IH. split.
    + intros [H1 H2]. constructor; [|assumption].
      intros Hin. unfold str_mem in H1.
      assert (existsb (str_eqb x) l = true); [|congruence].
      apply existsb_exists. exists x. split; [assumption | apply str_eqb_refl].
    + intros H. inversion H as [|? ? Hx Hl]; subst. split; [|assumption].
      destruct (str_mem x l) eqn:E; [|reflexivity].
      unfold str_mem in E. apply existsb_exists in E as (y & Hy & Ey).
      apply str_eqb_eq in Ey. subst. contradiction.
Qed.

(** * The collision loop *)

Lemma str_of_nat_inj (a b : nat) : str_of_nat a = str_of_nat b -> a = b.
Proof.
  unfold str_of_nat. intros H.
  apply (f_equal string_of_list_ascii) in H.
  rewrite !string_of_list_ascii_of_string in H.
  apply Unsigned.to_uint_inj.
  assert (E : Some (Nat.to_uint a) = Some (Nat.to_uint b))
    by (rewrite <- !NilEmpty.usu; now rewrite H).
  now injection E.
Qed.

Lemma file_candidate_inj (base_name ext : str) (a b : nat) :
  file_candidate base_name ext a = file_candidate base_name ext b -> a = b.
Proof.
  unfold file_candidate. intros H.
  apply app_inv_head in H. apply app_inv_head in H. apply app_inv_tail in H.
  now apply str_of_nat_inj.
Qed.

Lemma dir_candidate_inj (base_name : str) (a b : nat) :
  dir_candidate base_name a = dir_candidate base_name b -> a = b.
Proof.
  unfold dir_candidate. intros H.
  apply app_inv_head in H. apply app_inv_head in H.
  now apply str_of_nat_inj.
Qed.

Section Loop.

Variable t : node.
Variable root : path.
Variable fmt : nat -> str.
Hypothesis fmt_inj : forall a b, fmt a = fmt b -> a = b.

(** The loop, started on the candidate of [counter], stops at the first
    free candidate. *)
Lemma while_exists_run (n fuel counter : nat) :
  n < fuel ->
  (forall k, counter <= k < counter + n -> path_exists t (root ++ [fmt k]) = true) ->
  path_exists t (root ++ [fmt (counter + n)]) = false ->
  while_exists fuel t root fmt (fmt counter) (S counter) = Some (fmt (counter + n)).
Proof.
  revert fuel counter; induction n as [|n IH]; intros [|fuel] counter Hf Hocc Hfree;
    try lia; simpl.
  - rewrite Nat.add_0_r in Hfree. rewrite Hfree. now rewrite Nat.add_0_r.
  - rewrite (Hocc counter) by lia.
    replace (counter + S n) with (S counter + n) in * by lia.
    apply IH; [lia | | assumption]. intros k Hk. apply Hocc. lia.
Qed.

(** Searching upwards from [lo]: all of the next [n] candidates are taken, or
    there is a first free one. *)
Lemma bounded_search (lo n : nat) :
  (forall k, lo <= k < lo + n -> path_exists t (root ++ [fmt k]) = true) \/
  (exists N, lo <= N < lo + n /\ path_exists t (root ++ [fmt N]) = false /\
             forall k, lo <= k < N -> path_exists t (root ++ [fmt k]) = true).
Proof.
  induction n as [|n [IH | (N & HN & Hfree & Hocc)]].
  - left. intros k Hk. lia.
  - destruct (path_exists t (root ++ [fmt (lo + n)])) eqn:E.
    + left. intros k Hk. destruct (Nat.eq_dec k (lo + n)) as [->|]; [assumption|].
      apply IH. lia.
    + right. exists (lo + n). repeat split; try lia; [assumption|].
      intros k Hk. apply IH. lia.
  - right. exists N. repeat split; try lia; assumption.
Qed.

(** A directory cannot hold one more candidate than it has entries. *)
Lemma candidates_pigeonhole (lo : nat) :
  ~ (forall k, lo <= k < lo + S (List.length (listing t root)) ->
               path_exists t (root ++ [fmt k]) = true).
Proof.
  intros H.
  set (L := List.length (listing t root)) in *.
  assert (Hincl : incl (map fmt (seq lo (S L))) (listing t root)).
  { intros x Hx. apply in_map_iff in Hx as (k & <- & Hk). apply in_seq in Hk.
    apply path_exists_listing. apply H. lia. }
  assert (Hnd : NoDup (map fmt (seq lo (S L)))).
  { apply Injective_map_NoDup; [exact fmt_inj | apply seq_NoDup]. }
  pose proof (NoDup_incl_length Hnd Hincl) as Hlen.
  rewrite length_map, length_seq in Hlen. subst L. lia.
Qed.

Lemma first_free_exists :
  exists N, first_free t root fmt N /\ N <= S (List.length (listing t root)).
Proof.
  destruct (bounded_search 1 (S (List.length (listing t root))))
    as [H | (N & HN & Hfree & Hocc)].
  - exfalso. exact (candidates_pigeonhole 1 H).
  - exists N. unfold first_free. repeat split; try lia; assumption.
Qed.

(** With fuel for two more rounds than the directory has entries, the loop
    ends: on the candidate itself when it is free, else on the first free
    numbered one. *)
Lemma while_exists_result (fuel : nat) (new_name : str) :
  List.length (listing t root) + 2 <= fuel ->
  exists r, while_exists fuel t root fmt new_name 1 = Some r /\
            path_exists t (root ++ [r]) = false /\
            (path_exists t (root ++ [new_name]) = false -> r = new_name) /\
            (path_exists t (root ++ [new_name]) = true ->
             exists N, first_free t root fmt N /\ r = fmt N).
Proof.
  intros Hf. destruct fuel as [|fuel]; [lia|]. simpl.
  destruct (path_exists t (root ++ [new_name])) eqn:E.
  - destruct first_free_exists as (N & (HN & Hfree & Hocc) & Hle).
    exists (fmt N). replace N with (1 + (N - 1)) at 1 by lia.
    split; [|split; [assumption | split; [discriminate|]]].
    + apply while_exists_run; [lia | |].
      * intros k Hk. apply Hocc. lia.
      * now replace (1 + (N - 1)) with N by lia.
    + intros _. exists N. unfold first_free. auto.
  - exists new_name. repeat split; auto. discriminate.
Qed.

End Loop.



(** * The walk *)

Lemma size_positive (t : node) : 1 <= size t.
Proof. destruct t; simpl; lia. Qed.

Lemma size_entry (e : str * node) (es : list (str * node)) :
  In e es -> size (snd e) <= list_sum (map (fun e => size (snd e)) es).
Proof.
  induction es as [|x es IH]; simpl; [tauto|].
  intros [-> | H]; [lia | specialize (IH H); lia].
Qed.

Lemma length_le_size (es : list (str * node)) :
  List.length es <= list_sum (map (fun e => size (snd e)) es).
Proof.
  induction es as [|x es IH]; simpl; [lia|].
  pose proof (size_positive (snd x)). lia.
Qed.

Section Walk.

Variable denied : node -> path -> path -> option OSError.

Lemma os_rename_cases (t : node) (root : path) (old new : str) :
  path_exists t (root ++ [new]) = false ->
  (exists e, os_rename denied t root old new = inl e) \/
  os_rename denied t root old new = inr (update t root (rename_in old new)).
Proof.
  unfold os_rename, path_exists. intros Hnew.
  destruct (denied t (root ++ [old]) (root ++ [new])); [left; eauto|].
  destruct (get t (root ++ [old])); [|left; eauto].
  destruct (get t (root ++ [new])); [discriminate | now right].
Qed.

Lemma rename_below_put (fs0 : node) (top : path) (es : list (str * node)) (old new : str) :
  update (put fs0 top (Dir es)) top (rename_in old new)
  = put fs0 top (Dir (rename_entry old new es)).
Proof. unfold put. rewrite update_twice. reflexivity. Qed.

Lemma process_file_spec (fuel : nat) (fs0 : node) (top : path) (c0 : node)
    (es : list (str * node)) (st : state) (old : str) :
  get fs0 top = Some c0 -> fs st = put fs0 top (Dir es) ->
  List.length es + 2 <= fuel ->
  level_step fs0 top KFile old es st (process_file denied fuel top st old).
Proof.
  intros Hget Hfs Hfuel. unfold level_step, process_file. cbv zeta.
  destruct (is_valid_windows_filename old); cbn [negb].
  - exists (visit st KFile (top ++ [old])), es, []. simpl.
    rewrite app_nil_r. repeat split; auto.
  - destruct (splitext (sanitize_filename old default_replacement)) as [base ext].
    cbn [fs visit].
    destruct (while_exists_result (fs st) top _ (file_candidate_inj base ext) fuel
                (sanitize_filename old default_replacement)) as (r & -> & Hfree & _).
    { rewrite Hfs, (listing_put _ _ _ _ Hget), length_map. exact Hfuel. }
    destruct (os_rename_cases (fs st) top old r Hfree) as [(e & ->) | ->].
    + eexists. exists es. eexists. split; [reflexivity|]. simpl.
      repeat split; auto. repeat constructor. now exists r.
    + eexists. exists (rename_entry old r es). eexists. split; [reflexivity|]. simpl.
      rewrite Hfs, rename_below_put, rename_entry_length.
      repeat split; auto. repeat constructor. now exists r.
Qed.

Lemma process_dir_spec (fuel : nat) (fs0 : node) (top : path) (c0 : node)
    (es : list (str * node)) (st : state) (old : str) :
  get fs0 top = Some c0 -> fs st = put fs0 top (Dir es) ->
  List.length es + 2 <= fuel ->
  level_step fs0 top KDir old es st (process_dir denied fuel top st old).
Proof.
  intros Hget Hfs Hfuel. unfold level_step, process_dir. cbv zeta.
  destruct (is_valid_windows_filename old); cbn [negb].
  - exists (visit st KDir (top ++ [old])), es, []. simpl.
    rewrite app_nil_r. repeat split; auto.
  - cbn [fs visit].
    destruct (while_exists_result (fs st) top _
                (dir_candidate_inj (sanitize_filename old default_replacement)) fuel
                (sanitize_filename old default_replacement)) as (r & -> & Hfree & _).
    { rewrite Hfs, (listing_put _ _ _ _ Hget), length_map. exact Hfuel. }
    destruct (os_rename_cases (fs st) top old r Hfree) as [(e & ->) | ->].
    + eexists. exists es. eexists. split; [reflexivity|]. simpl.
      repeat split; auto. repeat constructor. now exists r.
    + eexists. exists (rename_entry old r es). eexists. split; [reflexivity|]. simpl.
      rewrite Hfs, rename_below_put, rename_entry_length.
      repeat split; auto. repeat constructor. now exists r.
Qed.

Lemma renames_in_trace_incl (tr tr' : list (kind * path)) (lg : list (level * message)) :
  incl tr tr' -> Forall (renames_in_trace tr) lg -> Forall (renames_in_trace tr') lg.
Proof.
  intros Hincl. apply Forall_impl. intros r (k & root & old & Hin & Hr).
  exists k, root, old. auto.
Qed.

(** A whole loop of such rounds. *)
Lemma for_each_level (fs0 : node) (top : path) (k : kind)
    (body : state -> str -> option state) (bound : nat) :
  (forall st old es, fs st = put fs0 top (Dir es) -> List.length es = bound ->
                     level_step fs0 top k old es st (body st old)) ->
  forall names st es,
    fs st = put fs0 top (Dir es) -> List.length es = bound ->
    exists st' es' lg,
      for_each body names st = Some st' /\ fs st' = put fs0 top (Dir es') /\
      List.length es' = bound /\
      log st' = log st ++ lg /\
      Forall (renames_in_trace (map (fun n => (k, top ++ [n])) names)) lg /\
      visited st' = visited st ++ map (fun n => (k, top ++ [n])) names.
Proof.
  intros Hbody names. induction names as [|old names IH]; intros st es Hfs Hlen.
  - exists st, es, []. simpl. rewrite !app_nil_r. repeat split; auto.
  - destruct (Hbody st old es Hfs Hlen)
      as (st1 & es1 & lg1 & E & Hfs1 & Hlen1 & Hlog1 & Hrec1 & Hvis1).
    destruct (IH st1 es1 Hfs1 ltac:(lia))
      as (st2 & es2 & lg2 & E2 & Hfs2 & Hlen2 & Hlog2 & Hrec2 & Hvis2).
    exists st2, es2, (lg1 ++ lg2). simpl. rewrite E.
    repeat split; try assumption.
    + rewrite Hlog2, Hlog1. now rewrite app_assoc.
    + apply Forall_app. split.
      * eapply Forall_impl; [|exact Hrec1]. intros r Hr.
        exists k, top, old. split; [now left | assumption].
      * eapply renames_in_trace_incl; [|exact Hrec2]. intros x Hx. now right.
    + rewrite Hvis2, Hvis1. now rewrite <- app_assoc.
Qed.

(** The walks into the sub-directories of one directory, given what a walk
    with the remaining fuel does. *)
Lemma walk_children (f : nat) (fs0 : node) (top : path) (c0 : node) :
  (forall top st t, get (fs st) top = Some t -> well_formed t = true ->
                    size t < f -> walk_result top t st (walk denied f top st)) ->
  get fs0 top = Some c0 ->
  forall suf pre st,
    fs st = put fs0 top (Dir (pre ++ suf)) ->
    NoDup (map fst (pre ++ suf)) ->
    Forall (fun e => well_formed (snd e) = true /\ size (snd e) < f) suf ->
    exists st' suf' lg,
      for_each (fun st d => walk denied f (top ++ [d]) st) (dirs_of suf) st = Some st' /\
      fs st' = put fs0 top (Dir (pre ++ suf')) /\
      List.length suf' = List.length suf /\
      log st' = log st ++ lg /\
      Forall (renames_in_trace
                (flat_map (fun e => postorder (top ++ [fst e]) (snd e)) suf)) lg /\
      visited st' = visited st ++ flat_map (fun e => postorder (top ++ [fst e]) (snd e)) suf.
Proof.
  intros IHf Hget suf. induction suf as [|[n c] suf IH]; intros pre st Hfs Hnd Hall.
  - exists st, [], []. simpl. rewrite !app_nil_r. rewrite app_nil_r in Hfs.
    repeat split; auto.
  - assert (Hn : ~ In n (map fst pre)).
    { rewrite map_app in Hnd. simpl in Hnd. apply NoDup_remove_2 in Hnd.
      intros H. apply Hnd. apply in_or_app. now left. }
    inversion Hall as [|? ? [Hwf Hsz] Hall']; subst. cbn [snd] in Hwf, Hsz.
    destruct c as [|ces].
    + destruct (IH (pre ++ [(n, File)]) st)
        as (st' & suf' & lg & E & Hfs' & Hlen & Hlog & Hrec & Hvis).
      * now rewrite <- app_assoc.
      * now rewrite <- app_assoc.
      * assumption.
      * exists st', ((n, File) :: suf'), lg.
        rewrite <- app_assoc in Hfs'. simpl in *. repeat split; auto.
    + assert (Hc : get (fs st) (top ++ [n]) = Some (Dir ces)).
      { rewrite Hfs. unfold put at 1. fold (put fs0 top (Dir (pre ++ (n, Dir ces) :: suf))).
        rewrite (get_put_below _ _ _ _ _ Hget). simpl.
        now rewrite (lookup_app_notin _ _ _ Hn), lookup_head. }
      destruct (IHf (top ++ [n]) st (Dir ces) Hc Hwf Hsz)
        as (st1 & c' & lg1 & E1 & Hfs1 & Hlog1 & Hrec1 & Hvis1).
      assert (Hfs1' : fs st1 = put fs0 top (Dir ((pre ++ [(n, c')]) ++ suf))).
      { rewrite Hfs1, Hfs. unfold put at 1. rewrite update_put_below. simpl.
        rewrite (map_entry_app_notin _ _ _ _ Hn), map_entry_head.
        now rewrite <- app_assoc. }
      destruct (IH (pre ++ [(n, c')]) st1 Hfs1')
        as (st' & suf' & lg & E & Hfs' & Hlen & Hlog & Hrec & Hvis).
      * rewrite <- app_assoc. simpl. rewrite map_app in *. exact Hnd.
      * assumption.
      * exists st', ((n, c') :: suf'), (lg1 ++ lg).
        rewrite <- app_assoc in Hfs'. unfold dirs_of in *. simpl in *. rewrite E1.
        repeat split; try assumption; try lia.
        -- rewrite Hlog, Hlog1. now rewrite app_assoc.
        -- apply Forall_app. split.
           ++ eapply renames_in_trace_incl; [|exact Hrec1]. apply incl_appl, incl_refl.
           ++ eapply renames_in_trace_incl; [|exact Hrec]. apply incl_appr, incl_refl.
        -- rewrite Hvis, Hvis1. now rewrite <- app_assoc.
Qed.

Lemma walk_spec (fuel : nat) :
  forall top st t, get (fs st) top = Some t -> well_formed t = true ->
                   size t < fuel -> walk_result top t st (walk denied fuel top st).
Proof.
  induction fuel as [|f IHf]; intros top st t Hget Hwf Hsz; [lia|].
  unfold walk_result. simpl walk. rewrite Hget. destruct t as [|es].
  - exists st, File, []. rewrite (put_same _ _ _ Hget), !app_nil_r.
    repeat split; auto.
  - simpl in Hwf, Hsz. apply andb_true_iff in Hwf as [Hnd Hwf].
    apply nodupb_NoDup in Hnd. rewrite forallb_forall in Hwf.
    pose proof (length_le_size es) as Hlen.
    destruct (walk_children f (fs st) top (Dir es) IHf Hget es [] st)
      as (st1 & es1 & lg1 & E1 & Hfs1 & Hlen1 & Hlog1 & Hrec1 & Hvis1).
    { simpl. now rewrite (put_same _ _ _ Hget). }
    { exact Hnd. }
    { apply Forall_forall. intros e He. split; [now apply Hwf|].
      pose proof (size_entry e es He). lia. }
    rewrite E1. unfold process_level. simpl in Hfs1.
    destruct (for_each_level (fs st) top KFile (process_file denied (S f) top)
                (List.length es)) with (names := nondirs_of es) (st := st1) (es := es1)
      as (st2 & es2 & lg2 & E2 & Hfs2 & Hlen2 & Hlog2 & Hrec2 & Hvis2); try assumption.
    { intros s old es' Hs Hl. eapply process_file_spec; eauto. lia. }
    rewrite E2.
    destruct (for_each_level (fs st) top KDir (process_dir denied (S f) top)
                (List.length es)) with (names := dirs_of es) (st := st2) (es := es2)
      as (st3 & es3 & lg3 & E3 & Hfs3 & Hlen3 & Hlog3 & Hrec3 & Hvis3); try assumption.
    { intros s old es' Hs Hl. eapply process_dir_spec; eauto. lia. }
    exists st3, (Dir es3), (lg1 ++ lg2 ++ lg3). repeat split; try assumption.
    + rewrite Hlog3, Hlog2, Hlog1. now rewrite !app_assoc.
    + simpl. repeat (apply Forall_app; split).
      * eapply renames_in_trace_incl; [|exact Hrec1]. apply incl_appl, incl_refl.
      * eapply renames_in_trace_incl; [|exact Hrec2].
        apply incl_appr, incl_appl, incl_refl.
      * eapply renames_in_trace_incl; [|exact Hrec3].
        apply incl_appr, incl_appr, incl_refl.
    + rewrite Hvis3, Hvis2, Hvis1. simpl. now rewrite <- !app_assoc.
Qed.

End Walk.

(** * The order of the walk *)

Lemma node_induction (P : node -> Prop) :
  P File ->
  (forall es, Forall (fun e => P (snd e)) es -> P (Dir es)) ->
  forall t, P t.
Proof.
  intros HF HD. fix IH 1. intros [|es]; [exact HF|]. apply HD.
  induction es as [|[n c] es IHes]; constructor; [apply IH | exact IHes].
Qed.

Lemma lookup_In_pair (n : str) (es : list (str * node)) (c : node) :
  lookup n es = Some c -> In (n, c) es.
Proof.
  induction es as [|[m d] es IH]; simpl; [discriminate|].
  destruct (str_eqb n m) eqn:E.
  - apply str_eqb_eq in E. intros [= ->]. left. congruence.
  - auto.
Qed.

Lemma In_lookup (n : str) (es : list (str * node)) (c : node) :
  NoDup (map fst es) -> In (n, c) es -> lookup n es = Some c.
Proof.
  induction es as [|[m d] es IH]; simpl; [tauto|].
  intros Hnd. inversion Hnd as [|? ? Hm Hes]; subst.
  intros [[= -> ->] | H].
  - now rewrite str_eqb_refl.
  - destruct (str_eqb n m) eqn:E; [|auto].
    apply str_eqb_eq in E. subst m. exfalso. apply Hm.
    apply in_map_iff. now exists (n, c).
Qed.

Lemma dirs_of_In (n : str) (es : list (str * node)) :
  In n (dirs_of es) <-> exists c, In (n, c) es /\ is_dir c = true.
Proof.
  unfold dirs_of. rewrite in_map_iff. split.
  - intros ([m c] & <- & H). apply filter_In in H as [H1 H2]. now exists c.
  - intros (c & H1 & H2). exists (n, c). split; [reflexivity|].
    apply filter_In. auto.
Qed.

Lemma nondirs_of_In (n : str) (es : list (str * node)) :
  In n (nondirs_of es) <-> exists c, In (n, c) es /\ is_dir c = false.
Proof.
  unfold nondirs_of. rewrite in_map_iff. split.
  - intros ([m c] & <- & H). apply filter_In in H as [H1 H2].
    apply negb_true_iff in H2. now exists c.
  - intros (c & H1 & H2). exists (n, c). split; [reflexivity|].
    apply filter_In. split; [assumption | now apply negb_true_iff].
Qed.

(** Every entry below [top] is in the bottom-up enumeration, by its kind and
    its path. *)
Lemma postorder_complete (t : node) :
  forall top q c, q <> [] -> get t q = Some c ->
                  In (kind_of c, top ++ q) (postorder top t).
Proof.
  induction t as [|es IH] using node_induction; intros top [|n q] c Hq Hget;
    try contradiction; simpl in Hget; [discriminate|].
  destruct (lookup n es) as [c1|] eqn:E; [|discriminate].
  apply lookup_In_pair in E. simpl. apply in_or_app.
  destruct q as [|m q].
  - right. simpl in Hget. injection Hget as ->. apply in_or_app.
    destruct c as [|ces]; [left | right]; apply in_map_iff; exists n;
      (split; [reflexivity|]).
    + apply nondirs_of_In. now exists File.
    + apply dirs_of_In. now exists (Dir ces).
  - left. apply in_flat_map. exists (n, c1). split; [assumption|].
    rewrite Forall_forall in IH. specialize (IH _ E (top ++ [n]) (m :: q) c).
    cbn [fst snd] in *. rewrite <- app_assoc in IH. apply IH; [discriminate | assumption].
Qed.

(** Every element of the enumeration is an entry of the tree, under the path
    it has there. *)
Lemma postorder_sound (t : node) :
  forall top k p, well_formed t = true -> In (k, p) (postorder top t) ->
    exists q c, q <> [] /\ p = top ++ q /\ get t q = Some c /\ kind_of c = k.
Proof.
  induction t as [|es IH] using node_induction; intros top k p Hwf Hin;
    simpl in Hin; [contradiction|].
  simpl in Hwf. apply andb_true_iff in Hwf as [Hnd Hwf].
  apply nodupb_NoDup in Hnd. rewrite forallb_forall in Hwf.
  apply in_app_or in Hin as [Hin | Hin]; [|apply in_app_or in Hin as [Hin | Hin]].
  - apply in_flat_map in Hin as ([n c1] & He & Hin). cbn [fst snd] in Hin.
    rewrite Forall_forall in IH.
    destruct (IH _ He (top ++ [n]) k p (Hwf _ He) Hin) as (q & c & Hq & -> & Hget & Hk).
    exists (n :: q), c. repeat split; try assumption; try discriminate.
    + now rewrite <- app_assoc.
    + simpl. now rewrite (In_lookup _ _ _ Hnd He).
  - apply in_map_iff in Hin as (n & [= <- <-] & Hn).
    apply nondirs_of_In in Hn as (c & He & Hc).
    exists [n], c. repeat split; try discriminate.
    + simpl. now rewrite (In_lookup _ _ _ Hnd He).
    + now destruct c.
  - apply in_map_iff in Hin as (n & [= <- <-] & Hn).
    apply dirs_of_In in Hn as (c & He & Hc).
    exists [n], c. repeat split; try discriminate.
    + simpl. now rewrite (In_lookup _ _ _ Hnd He).
    + now destruct c.
Qed.

Lemma before_In {A : Type} (l : list A) (x y : A) :
  before l x y -> In x l /\ In y l.
Proof.
  intros (l1 & l2 & -> & Hy). split; apply in_or_app; right; [now left | now right].
Qed.

Lemma before_app {A : Type} (a b : list A) (x y : A) :
  before (a ++ b) x y ->
  before a x y \/ (In x a /\ In y b) \/ before b x y.
Proof.
  intros (l1 & l2 & E & Hy). apply app_eq_app in E as (l & [[-> E] | [-> ->]]).
  - destruct l as [|z l]; simpl in E.
    + right. right. exists [], l2. subst b. auto.
    + injection E as -> ->. apply in_app_or in Hy as [Hy | Hy].
      * left. now exists l1, l.
      * right. left. split; [|assumption]. apply in_or_app. right. now left.
  - right. right. now exists l, l2.
Qed.

(** Paths of entries of two different sub-directories do not lie inside one
    another, and do not share their parent. *)
Lemma inside_same_child (top : path) (n1 n2 : str) (q1 q2 : path) :
  inside (top ++ n1 :: q1) (top ++ n2 :: q2) -> n1 = n2.
Proof.
  intros (q & _ & E). rewrite <- app_assoc in E. apply app_inv_head in E.
  simpl in E. congruence.
Qed.

Lemma same_parent_same_child (top root : path) (n1 n2 d f : str) (q1 q2 : path) :
  q1 <> [] -> q2 <> [] ->
  top ++ n1 :: q1 = root ++ [d] -> top ++ n2 :: q2 = root ++ [f] -> n1 = n2.
Proof.
  intros H1 H2 E1 E2.
  destruct (exists_last H1) as (r1 & x1 & ->).
  destruct (exists_last H2) as (r2 & x2 & ->).
  change (top ++ n1 :: r1 ++ [x1]) with (top ++ (n1 :: r1) ++ [x1]) in E1.
  change (top ++ n2 :: r2 ++ [x2]) with (top ++ (n2 :: r2) ++ [x2]) in E2.
  rewrite app_assoc in E1, E2.
  apply app_inj_tail in E1 as [E1 _]. apply app_inj_tail in E2 as [E2 _].
  rewrite <- E2 in E1. apply app_inv_head in E1. congruence.
Qed.

(** After the name of a directory, the enumeration has no entry from inside
    that directory. *)
Lemma postorder_children_first (t : node) :
  forall top k d k' p, well_formed t = true ->
    before (postorder top t) (k, d) (k', p) -> ~ inside d p.
Proof.
  induction t as [|es IH] using node_induction; intros top k d k' p Hwf Hb.
  - destruct Hb as ([|] & ? & E & _); discriminate E.
  - simpl in Hwf. apply andb_true_iff in Hwf as [Hnd Hwf].
    apply nodupb_NoDup in Hnd. simpl in Hb.
    apply before_app in Hb as [Hb | [[Hx Hy] | Hb]].
    + (* both among the entries of sub-directories *)
      clear -IH Hnd Hwf Hb.
      induction es as [|[n c] es IHes]; simpl in Hb.
      * destruct Hb as ([|] & ? & E & _); discriminate E.
      * inversion IH as [|? ? IHc IH']; subst.
        inversion Hnd as [|? ? Hn Hnd']; subst.
        simpl in Hwf. apply andb_true_iff in Hwf as [Hwc Hwf].
        apply before_app in Hb as [Hb | [[Hx Hy] | Hb]].
        -- exact (IHc _ _ _ _ _ Hwc Hb).
        -- cbn [fst snd] in Hx.
           destruct (postorder_sound _ _ _ _ Hwc Hx) as (q1 & _ & Hq1 & -> & _).
           apply in_flat_map in Hy as ([n2 c2] & He2 & Hy). cbn [fst snd] in Hy.
           rewrite forallb_forall in Hwf.
           destruct (postorder_sound _ _ _ _ (Hwf _ He2) Hy) as (q2 & _ & Hq2 & -> & _).
           rewrite <- !app_assoc. simpl. intros Hin.
           apply inside_same_child in Hin. subst n2.
           apply Hn. apply in_map_iff. now exists (n, c2).
        -- now apply IHes.
    + (* an entry of a sub-directory, then an entry of this directory *)
      apply in_flat_map in Hx as ([n c] & He & Hx). cbn [fst snd] in Hx.
      rewrite forallb_forall in Hwf.
      destruct (postorder_sound _ _ _ _ (Hwf _ He) Hx) as (q1 & _ & Hq1 & -> & _).
      assert (exists m, p = top ++ [m]) as (m & ->).
      { apply in_app_or in Hy as [Hy | Hy]; apply in_map_iff in Hy as (m & [= _ <-] & _);
          now exists m. }
      intros (q & Hq & E). rewrite <- !app_assoc in E. apply app_inv_head in E.
      simpl in E. injection E as _ E. destruct q1; [contradiction | discriminate].
    + (* two entries of this directory *)
      apply before_In in Hb as [Hx Hy].
      assert (exists m, d = top ++ [m]) as (m & ->).
      { apply in_app_or in Hx as [Hx | Hx]; apply in_map_iff in Hx as (m & [= _ <-] & _);
          now exists m. }
      assert (exists m', p = top ++ [m']) as (m' & ->).
      { apply in_app_or in Hy as [Hy | Hy]; apply in_map_iff in Hy as (m' & [= _ <-] & _);
          now exists m'. }
      intros (q & Hq & E). rewrite <- !app_assoc in E. apply app_inv_head in E.
      simpl in E. injection E as _ E. destruct q; [contradiction | discriminate].
Qed.

(** After a sub-directory entry of a directory, the enumeration has no file
    of that directory. *)
Lemma postorder_files_first (t : node) :
  forall top root d f, well_formed t = true ->
    ~ before (postorder top t) (KDir, root ++ [d]) (KFile, root ++ [f]).
Proof.
  induction t as [|es IH] using node_induction; intros top root d f Hwf Hb.
  - destruct Hb as ([|] & ? & E & _); discriminate E.
  - simpl in Hwf. apply andb_true_iff in Hwf as [Hnd Hwf].
    apply nodupb_NoDup in Hnd. simpl in Hb.
    apply before_app in Hb as [Hb | [[Hx Hy] | Hb]].
    + clear -IH Hnd Hwf Hb.
      induction es as [|[n c] es IHes]; simpl in Hb.
      * destruct Hb as ([|] & ? & E & _); discriminate E.
      * inversion IH as [|? ? IHc IH']; subst.
        inversion Hnd as [|? ? Hn Hnd']; subst.
        simpl in Hwf. apply andb_true_iff in Hwf as [Hwc Hwf].
        apply before_app in Hb as [Hb | [[Hx Hy] | Hb]].
        -- exact (IHc _ _ _ _ Hwc Hb).
        -- cbn [fst snd] in Hx.
           destruct (postorder_sound _ _ _ _ Hwc Hx) as (q1 & _ & Hq1 & E1 & _).
           apply in_flat_map in Hy as ([n2 c2] & He2 & Hy). cbn [fst snd] in Hy.
           rewrite forallb_forall in Hwf.
           destruct (postorder_sound _ _ _ _ (Hwf _ He2) Hy) as (q2 & _ & Hq2 & E2 & _).
           rewrite <- app_assoc in E1, E2. simpl in E1, E2. symmetry in E1, E2.
           pose proof (same_parent_same_child _ _ _ _ _ _ _ _ Hq1 Hq2 E1 E2). subst n2.
           apply Hn. apply in_map_iff. now exists (n, c2).
        -- now apply IHes.
    + apply in_flat_map in Hx as ([n c] & He & Hx). cbn [fst snd] in Hx.
      rewrite forallb_forall in Hwf.
      destruct (postorder_sound _ _ _ _ (Hwf _ He) Hx) as (q1 & _ & Hq1 & E1 & _).
      assert (root = top) as ->.
      { apply in_app_or in Hy as [Hy | Hy]; apply in_map_iff in Hy as (m & [= E] & _);
          symmetry in E; now apply app_inj_tail in E as [-> _]. }
      rewrite <- app_assoc in E1. apply app_inv_head in E1. simpl in E1.
      injection E1 as _ E1. destruct q1; [contradiction | discriminate].
    + apply before_app in Hb as [Hb | [[Hx Hy] | Hb]].
      * apply before_In in Hb as [Hx _]. apply in_map_iff in Hx as (? & [=] & _).
      * apply in_map_iff in Hx as (? & [=] & _).
      * apply before_In in Hb as [_ Hy]. apply in_map_iff in Hy as (? & [=] & _).
Qed.

(** * The run as a sequence of steps *)

Lemma get_level (fs0 : node) (top : path) (c0 : node) (es : list (str * node)) (x : str) :
  get fs0 top = Some c0 -> get (put fs0 top (Dir es)) (top ++ [x]) = lookup x es.
Proof.
  intros H. rewrite (get_put_below _ _ _ _ _ H). simpl. now destruct (lookup x es).
Qed.

Lemma lookup_rename_other (old new x : str) (es : list (str * node)) :
  x <> old -> x <> new -> lookup x (rename_entry old new es) = lookup x es.
Proof.
  intros Ho Hn. induction es as [|[m d] es IH]; simpl; [reflexivity|].
  destruct (str_eqb old m) eqn:E; simpl.
  - apply str_eqb_eq in E. subst m.
    apply str_eqb_neq in Ho, Hn. now rewrite Ho, Hn.
  - destruct (str_eqb x m); auto.
Qed.

Lemma lookup_of_In (x : str) (es : list (str * node)) :
  In x (map fst es) -> exists c, lookup x es = Some c.
Proof.
  intros H. destruct (lookup x es) as [c|] eqn:E; [eauto|].
  apply lookup_None in E. contradiction.
Qed.

Lemma rename_entry_names (old new x : str) (es : list (str * node)) :
  In x (map fst (rename_entry old new es)) -> x = new \/ In x (map fst es).
Proof.
  induction es as [|[m d] es IH]; simpl; [tauto|].
  destruct (str_eqb old m); simpl; intuition.
Qed.

Lemma rename_entry_keeps (old new x : str) (es : list (str * node)) :
  In x (map fst es) -> x <> old -> In x (map fst (rename_entry old new es)).
Proof.
  intros Hin Hx. induction es as [|[m d] es IH]; simpl in *; [tauto|].
  destruct (str_eqb old m) eqn:E; simpl.
  - apply str_eqb_eq in E. subst m. destruct Hin as [-> | Hin]; [contradiction | auto].
  - destruct Hin as [-> | Hin]; auto.
Qed.

Lemma rename_entry_NoDup (old new : str) (es : list (str * node)) :
  NoDup (map fst es) -> ~ In new (map fst es) ->
  NoDup (map fst (rename_entry old new es)).
Proof.
  induction es as [|[m d] es IH]; simpl; [constructor|].
  intros Hnd Hnew. inversion Hnd as [|? ? Hm Hes]; subst.
  destruct (str_eqb old m); simpl.
  - constructor; [tauto | assumption].
  - constructor; [|apply IH; tauto].
    intros H. apply rename_entry_names in H as [-> | H]; tauto.
Qed.

Lemma filter_names_in (f : str * node -> bool) (es : list (str * node)) (x : str) :
  In x (map fst (filter f es)) -> In x (map fst es).
Proof.
  intros H. apply in_map_iff in H as (e & <- & He). apply filter_In in He as [He _].
  now apply in_map.
Qed.

Lemma while_exists_absent (fuel : nat) (t : node) (root : path) (fmt : nat -> str) :
  forall new_name counter r,
    while_exists fuel t root fmt new_name counter = Some r ->
    path_exists t (root ++ [r]) = false.
Proof.
  induction fuel as [|f IH]; intros new_name counter r; simpl; [discriminate|].
  destruct (path_exists t (root ++ [new_name])) eqn:E.
  - apply IH.
  - now intros [= <-].
Qed.

Lemma lookup_map_entry_other (a b : str) (f : node -> node) (es : list (str * node)) :
  a <> b -> lookup a (map_entry b f es) = lookup a es.
Proof.
  intros Hab. induction es as [|[m d] es IH]; simpl; [reflexivity|].
  destruct (str_eqb b m) eqn:E; simpl.
  - apply str_eqb_eq in E. subst m.
    apply str_eqb_neq in Hab. now rewrite Hab.
  - now rewrite IH.
Qed.

Lemma lookup_map_entry_same (n : str) (f : node -> node) (es : list (str * node)) :
  lookup n (map_entry n f es) = option_map f (lookup n es).
Proof.
  induction es as [|[m d] es IH]; simpl; [reflexivity|].
  destruct (str_eqb n m) eqn:E; simpl; rewrite E; [reflexivity | assumption].
Qed.

(** Two paths: one leads to the other, or goes on from it, or they part. *)
Lemma path_compare (p top : path) :
  below p top \/
  (exists x q, p = top ++ x :: q) \/
  (exists cs a b p' top', a <> b /\ p = cs ++ a :: p' /\ top = cs ++ b :: top').
Proof.
  revert top; induction p as [|a p IH]; intros top.
  - left. now exists top.
  - destruct top as [|b top].
    + right; left. now exists a, p.
    + destruct (str_eqb a b) eqn:E.
      * apply str_eqb_eq in E. subst b.
        destruct (IH top) as [(q & ->) | [(x & q & ->) | (cs & c & d & p' & top' & Hn & -> & ->)]].
        -- left. now exists q.
        -- right; left. now exists x, q.
        -- right; right. now exists (a :: cs), c, d, p', top'.
      * apply str_eqb_neq in E. right; right. now exists [], a, b, p, top.
Qed.

(** An update on one path is not seen on a path that parts from it. *)
Lemma get_update_apart (t : node) (cs : path) (a b : str) (p' top' : path)
    (f : node -> node) :
  a <> b ->
  get (update t (cs ++ b :: top') f) (cs ++ a :: p') = get t (cs ++ a :: p').
Proof.
  intros Hab. revert t; induction cs as [|n cs IH]; intros t; simpl.
  - destruct t as [|es]; [reflexivity|].
    now rewrite lookup_map_entry_other.
  - destruct t as [|es]; [reflexivity|].
    rewrite lookup_map_entry_same.
    destruct (lookup n es) as [c|]; simpl; [apply IH | reflexivity].
Qed.

Section Steps.

Variable denied : node -> path -> path -> option OSError.

Lemma run_steps_app (t t1 t2 : node) (tr1 tr2 : list (kind * path))
    (lg1 lg2 : list (level * message)) :
  run_steps denied t tr1 lg1 t1 -> run_steps denied t1 tr2 lg2 t2 ->
  run_steps denied t (tr1 ++ tr2) (lg1 ++ lg2) t2.
Proof.
  induction 1; intros Hrest; simpl.
  - exact Hrest.
  - apply steps_valid; auto.
  - eapply steps_renamed; eauto.
  - eapply steps_failed; eauto.
Qed.

(** The call of [os.rename] in a directory of distinct names, for an entry
    that is there and a target that is not. *)
Lemma rename_round (fs0 : node) (top : path) (c0 : node) (es : list (str * node))
    (old r : str) :
  get fs0 top = Some c0 ->
  NoDup (map fst es) -> In old (map fst es) -> ~ In r (map fst es) ->
  (exists e, denied (put fs0 top (Dir es)) (top ++ [old]) (top ++ [r]) = Some e /\
             os_rename denied (put fs0 top (Dir es)) top old r = inl e) \/
  (denied (put fs0 top (Dir es)) (top ++ [old]) (top ++ [r]) = None /\
   os_rename denied (put fs0 top (Dir es)) top old r
   = inr (put fs0 top (Dir (rename_entry old r es))) /\
   moved (put fs0 top (Dir es)) (put fs0 top (Dir (rename_entry old r es))) top old r).
Proof.
  intros Hget Hnd Hin Hr.
  destruct (lookup_of_In _ _ Hin) as (c & Hc).
  pose proof (proj2 (lookup_None r es) Hr) as Hnone.
  assert (Hne : old <> r) by (intros ->; contradiction).
  unfold os_rename.
  destruct (denied (put fs0 top (Dir es)) (top ++ [old]) (top ++ [r])) as [e|];
    [left; eauto|].
  right. split; [reflexivity|].
  rewrite !(get_level _ _ _ _ _ Hget), Hc, Hnone. split.
  - f_equal. apply rename_below_put.
  - unfold moved. rewrite !(get_level _ _ _ _ _ Hget). repeat split.
    + exists c. split; [assumption | now apply lookup_rename_new].
    + assumption.
    + now apply lookup_rename_old.
    + intros x Hx1 Hx2. rewrite !(get_level _ _ _ _ _ Hget).
      now apply lookup_rename_other.
    + intros p Hp Ho Hn.
      destruct (path_compare p top)
        as [H | [(x & q & ->) | (cs & a & b & p' & top' & Hab & -> & ->)]];
        [contradiction| |].
      * assert (Hx1 : x <> old).
        { intros ->. apply Ho. exists q. now rewrite <- app_assoc. }
        assert (Hx2 : x <> r).
        { intros ->. apply Hn. exists q. now rewrite <- app_assoc. }
        rewrite !(get_put_below _ _ _ _ _ Hget). simpl.
        now rewrite lookup_rename_other.
      * unfold put. now rewrite !get_update_apart.
Qed.

(** The part of a round that follows the collision loop. *)
Lemma attempt_steps (k : kind) (fs0 : node) (top : path) (c0 : node)
    (es : list (str * node)) (st : state) (old r : str) :
  get fs0 top = Some c0 -> fs st = put fs0 top (Dir es) ->
  NoDup (map fst es) -> In old (map fst es) ->
  is_valid_windows_filename old = false ->
  resolved (fs st) top k old r ->
  round_steps denied fs0 top k old es st
    (match os_rename denied (fs st) top old r with
     | inr t =>
         Some (logging_info (set_fs (visit st k (top ++ [old])) t)
                 (rename_message k (top ++ [old]) (top ++ [r])))
     | inl e =>
         Some (logging_error (visit st k (top ++ [old]))
                 (FailedToRename (top ++ [old]) (top ++ [r]) e))
     end).
Proof.
  intros Hget Hfs Hnd Hin Hinv Hres.
  destruct st as [t0 lg0 vis0]. simpl in Hfs. subst t0. cbn [fs] in *.
  assert (Hr : ~ In r (map fst es)).
  { destruct Hres as (fuel & Hw). apply while_exists_absent in Hw.
    unfold path_exists in Hw. rewrite (get_level _ _ _ _ _ Hget) in Hw.
    destruct (lookup r es) eqn:E; [discriminate|]. now apply lookup_None. }
  unfold round_steps. cbn [fs].
  destruct (rename_round _ _ _ _ _ _ Hget Hnd Hin Hr) as [(e & Hd & ->) | (Hd & -> & Hm)].
  - eexists. exists es. eexists. split; [reflexivity|]. simpl.
    repeat split; auto.
    eapply steps_failed; eauto; [|constructor].
    rewrite (get_level _ _ _ _ _ Hget).
    destruct (lookup_of_In _ _ Hin) as (c & ->). discriminate.
  - eexists. exists (rename_entry old r es). eexists. split; [reflexivity|]. simpl.
    repeat split; auto.
    + now apply rename_entry_NoDup.
    + apply rename_entry_length.
    + intros x Hx Hne. now apply rename_entry_keeps.
    + eapply steps_renamed; eauto. constructor.
Qed.

Lemma process_file_steps (fuel : nat) (fs0 : node) (top : path) (c0 : node)
    (es : list (str * node)) (st : state) (old : str) :
  get fs0 top = Some c0 -> fs st = put fs0 top (Dir es) ->
  NoDup (map fst es) -> In old (map fst es) ->
  List.length es + 2 <= fuel ->
  round_steps denied fs0 top KFile old es st (process_file denied fuel top st old).
Proof.
  intros Hget Hfs Hnd Hin Hfuel. unfold process_file. cbv zeta.
  destruct (is_valid_windows_filename old) eqn:Hinv; cbn [negb].
  - exists (visit st KFile (top ++ [old])), es, []. simpl. rewrite app_nil_r.
    repeat split; auto. apply steps_valid; [assumption | constructor].
  - destruct (splitext (sanitize_filename old default_replacement)) as [base ext] eqn:Esp.
    cbn [fs visit].
    destruct (while_exists_result (fs st) top _ (file_candidate_inj base ext) fuel
                (sanitize_filename old default_replacement)) as (r & Hw & _).
    { rewrite Hfs, (listing_put _ _ _ _ Hget), length_map. exact Hfuel. }
    rewrite Hw.
    apply (attempt_steps KFile fs0 top c0 es st old r); try assumption.
    exists fuel. unfold candidate_format. now rewrite Esp.
Qed.

Lemma process_dir_steps (fuel : nat) (fs0 : node) (top : path) (c0 : node)
    (es : list (str * node)) (st : state) (old : str) :
  get fs0 top = Some c0 -> fs st = put fs0 top (Dir es) ->
  NoDup (map fst es) -> In old (map fst es) ->
  List.length es + 2 <= fuel ->
  round_steps denied fs0 top KDir old es st (process_dir denied fuel top st old).
Proof.
  intros Hget Hfs Hnd Hin Hfuel. unfold process_dir. cbv zeta.
  destruct (is_valid_windows_filename old) eqn:Hinv; cbn [negb].
  - exists (visit st KDir (top ++ [old])), es, []. simpl. rewrite app_nil_r.
    repeat split; auto. apply steps_valid; [assumption | constructor].
  - cbn [fs visit].
    destruct (while_exists_result (fs st) top _
                (dir_candidate_inj (sanitize_filename old default_replacement)) fuel
                (sanitize_filename old default_replacement)) as (r & Hw & _).
    { rewrite Hfs, (listing_put _ _ _ _ Hget), length_map. exact Hfuel. }
    rewrite Hw.
    apply (attempt_steps KDir fs0 top c0 es st old r); try assumption.
    now exists fuel.
Qed.

(** A whole loop of rounds over distinct names [l] of the directory; the
    names [keep], which the loop does not take up, stay in it. *)
Lemma for_each_steps (fs0 : node) (top : path) (k : kind)
    (body : state -> str -> option state) (bound : nat) :
  (forall st old es, fs st = put fs0 top (Dir es) -> NoDup (map fst es) ->
                     In old (map fst es) -> List.length es = bound ->
                     round_steps denied fs0 top k old es st (body st old)) ->
  forall l keep st es,
    fs st = put fs0 top (Dir es) -> NoDup (map fst es) ->
    NoDup (l ++ keep) -> incl (l ++ keep) (map fst es) ->
    List.length es = bound ->
    exists st' es' lg,
      for_each body l st = Some st' /\ fs st' = put fs0 top (Dir es') /\
      NoDup (map fst es') /\ List.length es' = bound /\
      incl keep (map fst es') /\
      log st' = log st ++ lg /\
      visited st' = visited st ++ map (fun n => (k, top ++ [n])) l /\
      run_steps denied (fs st) (map (fun n => (k, top ++ [n])) l) lg (fs st').
Proof.
  intros Hbody l. induction l as [|old l IH]; intros keep st es Hfs Hnd Hl Hincl Hlen.
  - exists st, es, []. simpl. rewrite !app_nil_r. repeat split; auto. constructor.
  - simpl in Hl, Hincl. inversion Hl as [|? ? Hold Hl']; subst.
    destruct (Hbody st old es Hfs Hnd (Hincl old (or_introl eq_refl)) eq_refl)
      as (st1 & es1 & lg1 & E & Hfs1 & Hnd1 & Hlen1 & Hkeep1 & Hlog1 & Hvis1 & Hrun1).
    destruct (IH keep st1 es1 Hfs1 Hnd1 Hl') as
      (st2 & es2 & lg2 & E2 & Hfs2 & Hnd2 & Hlen2 & Hkeep2 & Hlog2 & Hvis2 & Hrun2).
    { intros x Hx. apply Hkeep1; [apply Hincl; now right|]. intros ->. contradiction. }
    { assumption. }
    exists st2, es2, (lg1 ++ lg2). simpl. rewrite E.
    repeat split; try assumption; try lia.
    + rewrite Hlog2, Hlog1. now rewrite app_assoc.
    + rewrite Hvis2, Hvis1. now rewrite <- app_assoc.
    + exact (run_steps_app _ _ _ _ _ _ _ Hrun1 Hrun2).
Qed.

(** The walks into the sub-directories of one directory, as steps. *)
Lemma walk_children_steps (f : nat) (fs0 : node) (top : path) (c0 : node) :
  (forall top st t, get (fs st) top = Some t -> well_formed t = true ->
                    size t < f ->
                    walk_steps_result denied top t st (walk denied f top st)) ->
  get fs0 top = Some c0 ->
  forall suf pre st,
    fs st = put fs0 top (Dir (pre ++ suf)) ->
    NoDup (map fst (pre ++ suf)) ->
    Forall (fun e => well_formed (snd e) = true /\ size (snd e) < f) suf ->
    exists st' suf' lg,
      for_each (fun st d => walk denied f (top ++ [d]) st) (dirs_of suf) st = Some st' /\
      fs st' = put fs0 top (Dir (pre ++ suf')) /\
      map fst suf' = map fst suf /\
      log st' = log st ++ lg /\
      visited st' = visited st ++ flat_map (fun e => postorder (top ++ [fst e]) (snd e)) suf /\
      run_steps denied (fs st)
        (flat_map (fun e => postorder (top ++ [fst e]) (snd e)) suf) lg (fs st').
Proof.
  intros IHf Hget suf. induction suf as [|[n c] suf IH]; intros pre st Hfs Hnd Hall.
  - exists st, [], []. simpl. rewrite !app_nil_r. rewrite app_nil_r in Hfs.
    repeat split; auto. constructor.
  - assert (Hn : ~ In n (map fst pre)).
    { rewrite map_app in Hnd. simpl in Hnd. apply NoDup_remove_2 in Hnd.
      intros H. apply Hnd. apply in_or_app. now left. }
    inversion Hall as [|? ? [Hwf Hsz] Hall']; subst. cbn [snd] in Hwf, Hsz.
    destruct c as [|ces].
    + destruct (IH (pre ++ [(n, File)]) st)
        as (st' & suf' & lg & E & Hfs' & Hnames & Hlog & Hvis & Hrun).
      * now rewrite <- app_assoc.
      * now rewrite <- app_assoc.
      * assumption.
      * exists st', ((n, File) :: suf'), lg.
        rewrite <- app_assoc in Hfs'. simpl in *. rewrite Hnames. repeat split; auto.
    + assert (Hc : get (fs st) (top ++ [n]) = Some (Dir ces)).
      { rewrite Hfs, (get_level _ _ _ _ _ Hget).
        now rewrite (lookup_app_notin _ _ _ Hn), lookup_head. }
      destruct (IHf (top ++ [n]) st (Dir ces) Hc Hwf Hsz)
        as (st1 & c' & lg1 & E1 & Hfs1 & Hlog1 & Hvis1 & Hrun1).
      assert (Hfs1' : fs st1 = put fs0 top (Dir ((pre ++ [(n, c')]) ++ suf))).
      { rewrite Hfs1, Hfs. unfold put at 1. rewrite update_put_below. simpl.
        rewrite (map_entry_app_notin _ _ _ _ Hn), map_entry_head.
        now rewrite <- app_assoc. }
      destruct (IH (pre ++ [(n, c')]) st1 Hfs1')
        as (st' & suf' & lg & E & Hfs' & Hnames & Hlog & Hvis & Hrun).
      * rewrite <- app_assoc. simpl. rewrite map_app in *. exact Hnd.
      * assumption.
      * exists st', ((n, c') :: suf'), (lg1 ++ lg).
        rewrite <- app_assoc in Hfs'. unfold dirs_of in *. simpl in *. rewrite E1, Hnames.
        repeat split; try assumption.
        -- rewrite Hlog, Hlog1. now rewrite app_assoc.
        -- rewrite Hvis, Hvis1. now rewrite <- app_assoc.
        -- exact (run_steps_app _ _ _ _ _ _ _ Hrun1 Hrun).
Qed.

Lemma level_names_NoDup (es : list (str * node)) :
  NoDup (map fst es) -> NoDup (nondirs_of es ++ dirs_of es).
Proof.
  induction es as [|[n c] es IH]; simpl; [constructor|].
  intros H. inversion H as [|? ? Hn Hes]; subst. specialize (IH Hes).
  assert (Hnot : ~ In n (nondirs_of es ++ dirs_of es)).
  { intros Hin. apply Hn.
    apply in_app_or in Hin as [Hin | Hin]; eapply filter_names_in, Hin. }
  unfold nondirs_of, dirs_of in *. simpl. destruct (is_dir c); simpl.
  - eapply NoDup_Add; [apply Add_app|]. split; assumption.
  - constructor; assumption.
Qed.

Lemma level_names_incl (es : list (str * node)) :
  incl (nondirs_of es ++ dirs_of es) (map fst es).
Proof.
  intros x Hx. apply in_app_or in Hx as [Hx | Hx]; eapply filter_names_in, Hx.
Qed.

Lemma walk_steps (fuel : nat) :
  forall top st t, get (fs st) top = Some t -> well_formed t = true ->
                   size t < fuel ->
                   walk_steps_result denied top t st (walk denied fuel top st).
Proof.
  induction fuel as [|f IHf]; intros top st t Hget Hwf Hsz; [lia|].
  unfold walk_steps_result. simpl walk. rewrite Hget. destruct t as [|es].
  - exists st, File, []. rewrite (put_same _ _ _ Hget), !app_nil_r.
    repeat split; auto. constructor.
  - simpl in Hwf, Hsz. apply andb_true_iff in Hwf as [Hnd Hwf].
    apply nodupb_NoDup in Hnd. rewrite forallb_forall in Hwf.
    pose proof (length_le_size es) as Hlen.
    destruct (walk_children_steps f (fs st) top (Dir es) IHf Hget es [] st)
      as (st1 & es1 & lg1 & E1 & Hfs1 & Hnames1 & Hlog1 & Hvis1 & Hrun1).
    { simpl. now rewrite (put_same _ _ _ Hget). }
    { exact Hnd. }
    { apply Forall_forall. intros e He. split; [now apply Hwf|].
      pose proof (size_entry e es He). lia. }
    rewrite E1. unfold process_level. simpl in Hfs1.
    assert (Hnd1 : NoDup (map fst es1)) by (now rewrite Hnames1).
    assert (Hlen1 : List.length es1 = List.length es).
    { rewrite <- (length_map fst es1), Hnames1. apply length_map. }
    destruct (for_each_steps (fs st) top KFile (process_file denied (S f) top)
                (List.length es)) with (l := nondirs_of es) (keep := dirs_of es)
                                       (st := st1) (es := es1)
      as (st2 & es2 & lg2 & E2 & Hfs2 & Hnd2 & Hlen2 & Hkeep2 & Hlog2 & Hvis2 & Hrun2);
      try assumption.
    { intros s old es' Hs Hn Hin Hl. eapply process_file_steps; eauto. lia. }
    { now apply level_names_NoDup. }
    { rewrite Hnames1. apply level_names_incl. }
    rewrite E2.
    destruct (for_each_steps (fs st) top KDir (process_dir denied (S f) top)
                (List.length es)) with (l := dirs_of es) (keep := @nil str)
                                       (st := st2) (es := es2)
      as (st3 & es3 & lg3 & E3 & Hfs3 & Hnd3 & Hlen3 & _ & Hlog3 & Hvis3 & Hrun3);
      try assumption.
    { intros s old es' Hs Hn Hin Hl. eapply process_dir_steps; eauto. lia. }
    { rewrite app_nil_r. apply (NoDup_app_remove_l _ _ (level_names_NoDup _ Hnd)). }
    { rewrite app_nil_r. exact Hkeep2. }
    exists st3, (Dir es3), (lg1 ++ lg2 ++ lg3). repeat split; try assumption.
    + rewrite Hlog3, Hlog2, Hlog1. now rewrite !app_assoc.
    + rewrite Hvis3, Hvis2, Hvis1. simpl. now rewrite <- !app_assoc.
    + simpl. exact (run_steps_app _ _ _ _ _ _ _ Hrun1
                      (run_steps_app _ _ _ _ _ _ _ Hrun2 Hrun3)).
Qed.

(** The records of a run are those of the entries it finds invalid, one
    for each, in the order of the run. *)
Lemma run_steps_records (t t' : node) (tr : list (kind * path))
    (lg : list (level * message)) :
  run_steps denied t tr lg t' -> Forall2 record_for (filter invalid_entry tr) lg.
Proof.
  induction 1; simpl.
  - constructor.
  - unfold invalid_entry at 1. cbn [snd]. rewrite last_last, H. exact IHrun_steps.
  - unfold invalid_entry at 1. cbn [snd]. rewrite last_last, H. cbn [negb].
    constructor; [|assumption]. exists root, old, new. cbn [fst snd]. auto.
  - unfold invalid_entry at 1. cbn [snd]. rewrite last_last, H. cbn [negb].
    constructor; [|assumption]. exists root, old, new. cbn [fst snd]. eauto.
Qed.

End Steps.

(** * Claims on the tree renamer *)

Lemma rename_files_in_directory_walk
    (denied : node -> path -> path -> option OSError) (resolve : str -> path)
    (fuel : nat) (directory : str) (st : state) (t : node) :
  get (fs st) (resolve directory) = Some t ->
  rename_files_in_directory denied resolve fuel directory st
  = walk denied fuel (resolve directory) st.
Proof.
  intros H. unfold rename_files_in_directory, path_exists. now rewrite H.
Qed.

Lemma before_cons {A : Type} (a : A) (l : list A) (x y : A) :
  before l x y -> before (a :: l) x y.
Proof. intros (l1 & l2 & -> & Hy). now exists (a :: l1), l2. Qed.

Lemma before_filter {A : Type} (f : A -> bool) (l : list A) (x y : A) :
  before (filter f l) x y -> before l x y.
Proof.
  induction l as [|a l IH]; simpl.
  - intros ([|] & ? & E & _); discriminate E.
  - destruct (f a); [|intros H; now apply before_cons, IH].
    intros ([|z l1] & l2 & E & Hy); simpl in E; injection E as <- E.
    + exists [], l. split; [reflexivity|]. subst. now apply filter_In in Hy as [Hy _].
    + apply before_cons, IH. now exists l1, l2.
Qed.

Lemma Forall2_In_r {A B : Type} (R : A -> B -> Prop) (l1 : list A) (l2 : list B) (y : B) :
  Forall2 R l1 l2 -> In y l2 -> exists x, In x l1 /\ R x y.
Proof.
  induction 1 as [|x z l1 l2 HR H IH]; simpl; [tauto|].
  intros [<- | Hy]; [now exists x; auto|].
  destruct (IH Hy) as (x' & Hx' & HR'). exists x'. auto.
Qed.

Lemma Forall2_before {A B : Type} (R : A -> B -> Prop) (l1 : list A) (l2 : list B)
    (y1 y2 : B) :
  Forall2 R l1 l2 -> before l2 y1 y2 ->
  exists x1 x2, before l1 x1 x2 /\ R x1 y1 /\ R x2 y2.
Proof.
  intros HF (a & b & -> & Hy).
  apply Forall2_app_inv_r in HF as (l1a & l1b & _ & HFb & ->).
  inversion HFb as [|x1 ? l1b' ? HR1 HFb']; subst.
  destruct (Forall2_In_r _ _ _ _ HFb' Hy) as (x2 & Hx2 & HR2).
  exists x1, x2. repeat split; try assumption. now exists l1a, l1b'.
Qed.

Lemma record_for_paths (v : kind * path) (r : level * message) (o n : path) :
  record_for v r -> record_paths (snd r) = Some (o, n) -> o = snd v.
Proof.
  intros (root & old & new & -> & [-> | (e & ->)]); simpl.
  - destruct (fst v); simpl; congruence.
  - congruence.
Qed.

(** C6.  The traversal is bottom-up.  On a well-formed tree, with fuel
    above its size, the run ends.  The entries it takes up are the entries
    the tree had below the directory at the start, under the paths they had
    then; no entry is taken up after the directory it lies in, and no file
    of a directory after a sub-directory entry of that directory.  The run
    goes through these entries in that order as [run_steps] tells: each
    entry with an invalid name is found in the tree of that moment under
    its old path, hence before any directory above it has been renamed, and
    moves, inside its directory, to the name its collision loop ends on,
    unless the host refuses.  So every record of the log is of the rename
    of one of these entries inside the directory of its old path, and no
    record of an entry inside a directory comes after the record of that
    directory. *)
Theorem walk_children_before_parents
    (denied : node -> path -> path -> option OSError) (resolve : str -> path)
    (fuel : nat) (directory : str) (st : state) (t : node) :
  get (fs st) (resolve directory) = Some t ->
  well_formed t = true ->
  size t < fuel ->
  exists st' tr lg,
    rename_files_in_directory denied resolve fuel directory st = Some st' /\
    visited st' = visited st ++ tr /\
    log st' = log st ++ lg /\
    Forall (renames_in_trace tr) lg /\
    (forall q c, q <> [] -> get t q = Some c ->
                 In (kind_of c, resolve directory ++ q) tr) /\
    (forall k p, In (k, p) tr ->
                 exists q c, q <> [] /\ p = resolve directory ++ q /\
                             get t q = Some c /\ kind_of c = k) /\
    (forall k d k' p, before tr (k, d) (k', p) -> ~ inside d p) /\
    (forall root d f, ~ before tr (KDir, root ++ [d]) (KFile, root ++ [f])) /\
    run_steps denied (fs st) tr lg (fs st') /\
    (forall r1 r2 o1 n1 o2 n2,
       before lg r1 r2 ->
       record_paths (snd r1) = Some (o1, n1) ->
       record_paths (snd r2) = Some (o2, n2) ->
       ~ inside o1 o2).
Proof.
  intros Hget Hwf Hsz.
  rewrite (rename_files_in_directory_walk _ _ _ _ _ _ Hget).
  destruct (walk_spec denied fuel _ _ _ Hget Hwf Hsz)
    as (st' & t' & lg & E & _ & Hlog & Hrec & Hvis).
  destruct (walk_steps denied fuel _ _ _ Hget Hwf Hsz)
    as (st2 & _ & lg2 & E2 & _ & Hlog2 & _ & Hrun).
  rewrite E in E2. injection E2 as <-.
  rewrite Hlog in Hlog2. apply app_inv_head in Hlog2. subst lg2.
  exists st', (postorder (resolve directory) t), lg.
  split; [assumption|]. split; [assumption|]. split; [assumption|].
  split; [assumption|]. split; [|split; [|split; [|split; [|split]]]].
  - intros q c. apply postorder_complete.
  - intros k p. now apply postorder_sound.
  - intros k d k' p. now apply postorder_children_first.
  - intros root d f. now apply postorder_files_first.
  - exact Hrun.
  - intros r1 r2 o1 n1 o2 n2 Hb H1 H2.
    destruct (Forall2_before _ _ _ _ _ (run_steps_records _ _ _ _ _ Hrun) Hb)
      as ([k1 p1] & [k2 p2] & Hbv & R1 & R2).
    apply before_filter in Hbv.
    rewrite (record_for_paths _ _ _ _ R1 H1), (record_for_paths _ _ _ _ R2 H2).
    exact (postorder_children_first _ _ _ _ _ _ Hwf Hbv).
Qed.

Lemma walk_children_before_parents_witness :
  exists st' tr lg,
    rename_files_in_directory no_denial resolve_from_root 5 "/" (empty_state tree_nested)
    = Some st' /\
    visited st' = [] ++ tr /\
    log st' = [] ++ lg /\
    Forall (renames_in_trace tr) lg /\
    (forall q c, q <> [] -> get tree_nested q = Some c ->
                 In (kind_of c, resolve_from_root "/" ++ q) tr) /\
    (forall k p, In (k, p) tr ->
                 exists q c, q <> [] /\ p = resolve_from_root "/" ++ q /\
                             get tree_nested q = Some c /\ kind_of c = k) /\
    (forall k d k' p, before tr (k, d) (k', p) -> ~ inside d p) /\
    (forall root d f, ~ before tr (KDir, root ++ [d]) (KFile, root ++ [f])) /\
    run_steps no_denial tree_nested tr lg (fs st') /\
    (forall r1 r2 o1 n1 o2 n2,
       before lg r1 r2 ->
       record_paths (snd r1) = Some (o1, n1) ->
       record_paths (snd r2) = Some (o2, n2) ->
       ~ inside o1 o2).
Proof.
  apply (walk_children_before_parents no_denial resolve_from_root 5 "/"
           (empty_state tree_nested) tree_nested); [reflexivity | reflexivity | simpl; lia].
Defined.

(** The nested example of the specification: the file is renamed under the
    old name of its folder, then the folder is renamed. *)
Example nested_example :
  exists st',
    rename_files_in_directory no_denial resolve_from_root 5 "/" (empty_state tree_nested)
    = Some st' /\
    log st' =
      [(INFO, RenamedFile ["My Folder" : str; "Sub File.txt" : str]
                          ["My Folder" : str; "Sub_File.txt" : str]);
       (INFO, RenamedFile ["notes 1.txt" : str] ["notes_1.txt" : str]);
       (INFO, RenamedDirectory ["My Folder" : str] ["My_Folder" : str])] /\
    fs st' = Dir [("My_Folder" : str, Dir [("Sub_File.txt" : str, File)]);
                  ("notes_1.txt" : str, File)].
Proof. eexists. repeat split. Qed.

(** C7.  A failed rename is local.  Whatever renames the host refuses, on
    a well-formed tree with fuel above its size the run ends, and it goes
    through all the entries of the tree, bottom-up, as [run_steps] tells:
    a refused rename leaves the tree as it is and logs an ERROR record with
    the old path, the attempted new path and the cause the host gave; the
    run then goes on, and every later entry with an invalid name, sibling
    or directory above, is renamed in its turn unless the host refuses that
    rename too. *)
Theorem rename_failure_is_local
    (denied : node -> path -> path -> option OSError) (resolve : str -> path)
    (fuel : nat) (directory : str) (st : state) (t : node) :
  get (fs st) (resolve directory) = Some t ->
  well_formed t = true ->
  size t < fuel ->
  exists st' lg,
    rename_files_in_directory denied resolve fuel directory st = Some st' /\
    log st' = log st ++ lg /\
    visited st' = visited st ++ postorder (resolve directory) t /\
    run_steps denied (fs st) (postorder (resolve directory) t) lg (fs st').
Proof.
  intros Hget Hwf Hsz.
  rewrite (rename_files_in_directory_walk _ _ _ _ _ _ Hget).
  destruct (walk_steps denied fuel _ _ _ Hget Hwf Hsz)
    as (st' & _ & lg & E & _ & Hlog & Hvis & Hrun).
  exists st', lg. auto.
Qed.

Lemma rename_failure_is_local_witness :
  exists st' lg,
    rename_files_in_directory (deny_path ["notes 1.txt" : str])
      resolve_from_root 5 "/" (empty_state tree_nested) = Some st' /\
    log st' = [] ++ lg /\
    visited st' = [] ++ postorder (resolve_from_root "/") tree_nested /\
    run_steps (deny_path ["notes 1.txt" : str]) tree_nested
      (postorder (resolve_from_root "/") tree_nested) lg (fs st').
Proof.
  apply (rename_failure_is_local (deny_path ["notes 1.txt" : str]) resolve_from_root
           5 "/" (empty_state tree_nested) tree_nested);
    [reflexivity | reflexivity | vm_compute; lia].
Defined.

(** The failure example of the specification: the rename of one file is
    refused, and its sibling and its folder are renamed all the same. *)
Example failure_example :
  exists st',
    rename_files_in_directory (deny_path ["notes 1.txt" : str])
      resolve_from_root 5 "/" (empty_state tree_nested) = Some st' /\
    log st' =
      [(INFO, RenamedFile ["My Folder" : str; "Sub File.txt" : str]
                          ["My Folder" : str; "Sub_File.txt" : str]);
       (ERROR, FailedToRename ["notes 1.txt" : str] ["notes_1.txt" : str] PermissionError);
       (INFO, RenamedDirectory ["My Folder" : str] ["My_Folder" : str])] /\
    fs st' = Dir [("My_Folder" : str, Dir [("Sub_File.txt" : str, File)]);
                  ("notes 1.txt" : str, File)].
Proof. eexists. repeat split. Qed.

Section Outcome.

Variable denied : node -> path -> path -> option OSError.

Lemma os_rename_done (t : node) (root : path) (old new : str) :
  denied t (root ++ [old]) (root ++ [new]) = None ->
  path_exists t (root ++ [old]) = true ->
  path_exists t (root ++ [new]) = false ->
  os_rename denied t root old new = inr (update t root (rename_in old new)).
Proof.
  unfold os_rename, path_exists. intros ->.
  destruct (get t (root ++ [old])); [|discriminate].
  destruct (get t (root ++ [new])); [discriminate | reflexivity].
Qed.

(** The directory after the rename of an entry to a free name. *)
Lemma renamed_entry_moves (t : node) (root : path) (es : list (str * node))
    (old new : str) :
  get t root = Some (Dir es) -> NoDup (map fst es) ->
  path_exists t (root ++ [old]) = true ->
  path_exists t (root ++ [new]) = false ->
  path_exists (update t root (rename_in old new)) (root ++ [old]) = false /\
  path_exists (update t root (rename_in old new)) (root ++ [new]) = true.
Proof.
  intros Hget Hnd Hold Hnew.
  rewrite (path_exists_lookup _ _ _ old Hget) in Hold.
  rewrite (path_exists_lookup _ _ _ new Hget) in Hnew.
  pose proof (get_update _ _ (rename_in old new) _ Hget) as Hget'. simpl in Hget'.
  rewrite (path_exists_lookup _ _ _ old Hget'), (path_exists_lookup _ _ _ new Hget').
  destruct (lookup old es) as [c|] eqn:Eo; [|discriminate].
  destruct (lookup new es) eqn:En; [discriminate|].
  apply lookup_None in En.
  assert (old <> new) by (intros ->; apply En; eapply lookup_In; eauto).
  rewrite (lookup_rename_old _ _ _ Hnd H), (lookup_rename_new _ _ _ _ Eo En). auto.
Qed.

End Outcome.



(** C1, on the code: after a run in which no rename fails, two files carry
    names that the validator of the script still rejects, one for its
    reserved stem and one for its final period. *)
Theorem renamed_names_stay_invalid :
  exists st',
    rename_files_in_directory no_denial resolve_from_root 4 "/" (empty_state tree_reserved)
    = Some st' /\
    fs st' = Dir [("CON.a_b" : str, File); ("a_1." : str, File)] /\
    log st' = [(INFO, RenamedFile ["CON.a-b" : str] ["CON.a_b" : str]);
               (INFO, RenamedFile ["a." : str] ["a_1." : str])] /\
    is_valid_windows_filename "CON.a_b" = false /\
    is_valid_windows_filename "a_1." = false.
Proof. eexists. repeat split. Qed.

(** C4, as stated, fails on a path that does not exist: the run logs the
    start message before the error and the completion message after it. *)
Lemma missing_directory_logs_completion :
  path_exists tree_con (resolve_from_root "nowhere") = false /\
  main no_denial resolve_from_root 3 "nowhere" (empty_state tree_con)
  = Some (mkState tree_con
            [(INFO, ProcessingDirectory "nowhere");
             (ERROR, DirectoryDoesNotExist ["nowhere" : str]);
             (INFO, ProcessingComplete)]
            []).
Proof. split; reflexivity. Qed.

(** C4, amended.  With no directory in the line, the run logs an error and
    nothing else.  With a directory that does not exist, it logs the start
    message, the error and the completion message, and walks nothing.  With
    a directory that exists, it logs the start message, walks the
    directory, and logs the completion message. *)
Theorem main_outcomes
    (denied : node -> path -> path -> option OSError) (resolve : str -> path)
    (fuel : nat) (line : str) (st : state) :
  let directory := strip whitespace line in
  (directory = [] ->
   main denied resolve fuel line st = Some (logging_error st NoDirectoryProvided)) /\
  (directory <> [] ->
   path_exists (fs st) (resolve directory) = false ->
   main denied resolve fuel line st
   = Some (mkState (fs st)
             (log st ++ [(INFO, ProcessingDirectory directory);
                         (ERROR, DirectoryDoesNotExist (resolve directory));
                         (INFO, ProcessingComplete)])
             (visited st))) /\
  (directory <> [] ->
   forall t, get (fs st) (resolve directory) = Some t ->
             well_formed t = true -> size t < fuel ->
   exists st' lg,
     walk denied fuel (resolve directory)
       (logging_info st (ProcessingDirectory directory)) = Some st' /\
     main denied resolve fuel line st = Some (logging_info st' ProcessingComplete) /\
     log st' = log st ++ [(INFO, ProcessingDirectory directory)] ++ lg /\
     visited st' = visited st ++ postorder (resolve directory) t).
Proof.
  cbv zeta. unfold main. destruct (strip whitespace line) as [|c d] eqn:E.
  - split; [reflexivity|]. split; intros H; contradiction.
  - split; [discriminate|]. split.
    + intros _ Hex. unfold rename_files_in_directory.
      cbn [fs logging_info]. rewrite Hex. cbn [negb].
      unfold logging_info, logging_error. cbn [fs log visited].
      now rewrite <- !app_assoc.
    + intros _ t Hget Hwf Hsz.
      rewrite (rename_files_in_directory_walk _ _ _ _ _ t) by exact Hget.
      destruct (walk_spec denied fuel (resolve (c :: d))
                  (logging_info st (ProcessingDirectory (c :: d))) t Hget Hwf Hsz)
        as (st' & t' & lg & Ew & _ & Hlog & _ & Hvis).
      exists st', lg. rewrite Ew. cbn [log visited logging_info] in Hlog, Hvis.
      repeat split; try assumption. now rewrite Hlog, <- app_assoc.
Qed.

Lemma main_outcomes_witness :
  main no_denial resolve_from_root 5 "  " (empty_state tree_nested)
  = Some (logging_error (empty_state tree_nested) NoDirectoryProvided) /\
  main no_denial resolve_from_root 5 " nowhere" (empty_state tree_nested)
  = Some (mkState tree_nested
            ([] ++ [(INFO, ProcessingDirectory "nowhere");
                    (ERROR, DirectoryDoesNotExist (resolve_from_root "nowhere"));
                    (INFO, ProcessingComplete)])
            []) /\
  exists st' lg,
    walk no_denial 5 (resolve_from_root "/")
      (logging_info (empty_state tree_nested) (ProcessingDirectory "/")) = Some st' /\
    main no_denial resolve_from_root 5 " / " (empty_state tree_nested)
    = Some (logging_info st' ProcessingComplete) /\
    log st' = [] ++ [(INFO, ProcessingDirectory "/")] ++ lg /\
    visited st' = [] ++ postorder (resolve_from_root "/") tree_nested.
Proof.
  split; [|split].
  - apply (proj1 (main_outcomes no_denial resolve_from_root 5 "  "
                    (empty_state tree_nested))).
    reflexivity.
  - apply (proj1 (proj2 (main_outcomes no_denial resolve_from_root 5 " nowhere"
                           (empty_state tree_nested)))); [discriminate | reflexivity].
  - apply (proj2 (proj2 (main_outcomes no_denial resolve_from_root 5 " / "
                           (empty_state tree_nested))) ltac:(discriminate) tree_nested);
      [reflexivity | reflexivity | vm_compute; lia].
Defined.

(** * Further properties of the validator and the sanitizer *)

Lemma endswith_snoc (s : str) (c d : ascii) :
  endswith (s ++ [c]) [d] = Ascii.eqb c d.
Proof.
  unfold endswith. rewrite length_app. cbn [List.length].
  replace (1 <=? List.length s + 1)%nat with true by (symmetry; apply Nat.leb_le; lia).
  replace (List.length s + 1 - 1)%nat with (List.length s) by lia.
  rewrite skipn_app, skipn_all, Nat.sub_diag. cbn. now rewrite andb_true_r.
Qed.

Lemma endswith_allowed (s : str) (d : ascii) :
  allowed_class d = false -> forallb allowed_class s = true -> endswith s [d] = false.
Proof.
  intros Hd Hs. destruct s as [|c s] using rev_ind; [reflexivity|].
  rewrite endswith_snoc. rewrite forallb_app in Hs. apply andb_true_iff in Hs as [_ Hc].
  simpl in Hc. rewrite andb_true_r in Hc.
  destruct (Ascii.eqb_spec c d) as [->|]; [congruence | reflexivity].
Qed.

Lemma span_spec (cls : ascii -> bool) (s m r : str) :
  span cls s = (m, r) ->
  s = m ++ r /\ forallb cls m = true /\
  (r = [] \/ exists c r', r = c :: r' /\ cls c = false).
Proof.
  revert m r; induction s as [|c s IH]; intros m r; simpl.
  - intros [= <- <-]. auto.
  - destruct (cls c) eqn:Ec.
    + destruct (span cls s) as [m' r']. intros [= <- <-].
      destruct (IH _ _ eq_refl) as (-> & Hm & Hr). simpl. rewrite Ec. auto.
    + intros [= <- <-]. repeat split. right. now exists c, s.
Qed.

Lemma span_stop (cls : ascii -> bool) (m : str) (c : ascii) (r : str) :
  forallb cls m = true -> cls c = false -> span cls (m ++ c :: r) = (m, c :: r).
Proof.
  induction m as [|x m IH]; simpl; intros Hm Hc.
  - now rewrite Hc.
  - apply andb_true_iff in Hm as [-> Hm]. now rewrite (IH Hm Hc).
Qed.

(** The validator on a name made of allowed characters. *)
Lemma is_valid_allowed (n : str) :
  n <> [] -> forallb allowed_class n = true ->
  is_valid_windows_filename n
  = negb (str_mem (upper (fst (splitext n))) reserved_names) && negb (endswith n ".").
Proof.
  intros Hne Hall. unfold is_valid_windows_filename. cbv zeta.
  assert (Hsp : endswith n " " = false) by (now apply (endswith_allowed n " "%char)).
  rewrite Hsp. cbn [orb].
  unfold re_match_plus. rewrite (span_all _ _ Hall).
  destruct (str_mem _ reserved_names); [reflexivity|].
  destruct (endswith n "."); [reflexivity|].
  destruct n; [contradiction | reflexivity].
Qed.

(** X1.  The validator accepts exactly the names whose stem is not
    reserved and which are a non-empty run of allowed characters, not
    ending with a period, or such a run followed by one newline. *)
Theorem valid_characterisation (n : str) :
  is_valid_windows_filename n = true <->
  str_mem (upper (fst (splitext n))) reserved_names = false /\
  exists m, m <> [] /\ forallb allowed_class m = true /\
            ((n = m /\ endswith n "." = false) \/ n = m ++ [newline]).
Proof.
  split.
  - unfold is_valid_windows_filename. cbv zeta.
    destruct (str_mem _ reserved_names); [discriminate|].
    destruct (endswith n " ") eqn:Esp; [discriminate|].
    destruct (endswith n ".") eqn:Edot; [discriminate|]. cbn [orb].
    unfold re_match_plus. destruct (span allowed_class n) as [m r] eqn:Es.
    destruct (span_spec _ _ _ _ Es) as (-> & Hm & _).
    destruct (str_eqb m []) eqn:Em; [discriminate|]. apply str_eqb_neq in Em.
    cbn [negb andb]. intros H. split; [reflexivity|]. exists m.
    split; [assumption|]. split; [assumption|].
    destruct (str_eqb r []) eqn:Er.
    + apply str_eqb_eq in Er. subst r. rewrite app_nil_r in *. auto.
    + cbn [orb negb] in H. destruct (str_eqb r [ascii_of_nat 10]) eqn:Er'; [|discriminate].
      apply str_eqb_eq in Er'. subst r. now right.
  - intros (Hres & m & Hne & Hall & [[-> Hdot] | ->]).
    + rewrite (is_valid_allowed _ Hne Hall), Hres, Hdot. reflexivity.
    + unfold is_valid_windows_filename. cbv zeta. rewrite Hres.
      assert (Hsp : endswith (m ++ [newline]) " " = false)
        by exact (endswith_snoc m newline " ").
      assert (Hdot : endswith (m ++ [newline]) "." = false)
        by exact (endswith_snoc m newline ".").
      rewrite Hsp, Hdot. cbn [orb]. unfold re_match_plus.
      rewrite (span_stop allowed_class m newline [] Hall eq_refl).
      destruct m; [contradiction | reflexivity].
Qed.

(** ** Reserved names *)

Lemma alnum_upper_char (c : ascii) : alnum (upper_char c) = alnum c.
Proof. destruct c as [[] [] [] [] [] [] [] []]; reflexivity. Qed.

Lemma alnum_facts (c : ascii) :
  alnum c = true ->
  name_char c = true /\ ext_char c = true /\ allowed_class c = true /\ c <> "_"%char.
Proof.
  destruct c as [[] [] [] [] [] [] [] []]; vm_compute; intros H;
    try discriminate H; repeat split; discriminate.
Qed.

Lemma forallb_impl (f g : ascii -> bool) (s : str) :
  (forall c, f c = true -> g c = true) -> forallb f s = true -> forallb g s = true.
Proof.
  intros H. rewrite !forallb_forall. auto.
Qed.

(** A name whose upper case is reserved is a non-empty run of letters and
    digits. *)
Lemma reserved_alnum (s : str) :
  str_mem (upper s) reserved_names = true -> s <> [] /\ forallb alnum s = true.
Proof.
  intros H. unfold str_mem in H. apply existsb_exists in H as (r & Hr & E).
  apply str_eqb_eq in E.
  assert (Hall : forallb alnum r = true /\ r <> []).
  { assert (F : forallb (fun r => forallb alnum r && negb (str_eqb r [])) reserved_names = true)
      by reflexivity.
    rewrite forallb_forall in F. specialize (F r Hr).
    apply andb_true_iff in F as [F1 F2]. apply negb_true_iff, str_eqb_neq in F2. auto. }
  destruct Hall as [Hall Hne]. subst r. split.
  - intros ->. now apply Hne.
  - clear -Hall. induction s as [|c s IH]; [reflexivity|]. simpl in *.
    rewrite alnum_upper_char in Hall. apply andb_true_iff in Hall as [-> Hall]. auto.
Qed.

(** X2.  A reserved name is invalid in any letter case, alone or before one
    extension. *)
Theorem reserved_any_case_any_extension (s e : str) :
  str_mem (upper s) reserved_names = true ->
  ~ In "."%char e -> ~ In "/"%char e ->
  is_valid_windows_filename s = false /\
  is_valid_windows_filename (s ++ "."%char :: e) = false.
Proof.
  intros Hres Hd Hs. destruct (reserved_alnum _ Hres) as [Hne Hal].
  assert (Hname : forallb name_char s = true).
  { eapply forallb_impl; [|exact Hal]. intros c Hc. apply (alnum_facts c Hc). }
  assert (Hsd : ~ In "."%char s).
  { apply (forallb_not_In name_char); [|assumption]. intros c Hc. apply (name_char_facts c Hc). }
  assert (Hss : ~ In "/"%char s).
  { apply (forallb_not_In name_char); [|assumption]. intros c Hc. apply (name_char_facts c Hc). }
  split; unfold is_valid_windows_filename; cbv zeta.
  - rewrite (splitext_no_dot _ Hsd). cbn [fst]. now rewrite Hres.
  - rewrite splitext_no_sep, (name_chars_not_all_dots _ Hne Hname); cbn [fst];
      [now rewrite Hres | | assumption].
    intros H. apply in_app_or in H as [H | [H | H]]; [tauto | discriminate H | tauto].
Qed.

Lemma reserved_any_case_any_extension_witness :
  is_valid_windows_filename "Lpt1" = false /\
  is_valid_windows_filename "Lpt1.log" = false.
Proof.
  apply (reserved_any_case_any_extension "Lpt1" "log"); [reflexivity | |];
    simpl; intuition discriminate.
Defined.

(** ** Names of the sanitized shape *)

Lemma name_char_allowed (c : ascii) : name_char c = true -> allowed_class c = true.
Proof. destruct c as [[] [] [] [] [] [] [] []]; vm_compute; auto. Qed.

Lemma ext_char_allowed (c : ascii) : ext_char c = true -> allowed_class c = true.
Proof. destruct c as [[] [] [] [] [] [] [] []]; vm_compute; auto. Qed.

Lemma digit_facts (c : ascii) :
  digit c = true -> name_char c = true /\ ext_char c = true.
Proof.
  destruct c as [[] [] [] [] [] [] [] []]; vm_compute; intros H;
    try discriminate H; auto.
Qed.

Lemma str_of_nat_digits (n : nat) : forallb digit (str_of_nat n) = true.
Proof.
  unfold str_of_nat. generalize (Nat.to_uint n). intros d.
  induction d; simpl; auto.
Qed.

Lemma splitext_shape (s e : str) :
  s <> [] -> forallb name_char s = true -> ext_shape e ->
  splitext (s ++ e) = (s, e).
Proof.
  intros Hne Hs [-> | (b & -> & Hb)].
  - rewrite app_nil_r. apply splitext_no_dot.
    apply (forallb_not_In name_char); [|assumption]. intros c Hc. apply (name_char_facts c Hc).
  - rewrite splitext_no_sep.
    + now rewrite (name_chars_not_all_dots _ Hne Hs).
    + intros H. apply in_app_or in H as [H | [H | H]].
      * revert H. apply (forallb_not_In name_char); [|assumption].
        intros c Hc. apply (name_char_facts c Hc).
      * discriminate H.
      * revert H. apply (forallb_not_In ext_char); [|assumption].
        intros c Hc. apply (ext_char_facts c Hc).
    + apply (forallb_not_In ext_char); [|assumption].
      intros c Hc. apply (ext_char_facts c Hc).
Qed.

Lemma allowed_shape (s e : str) :
  forallb name_char s = true -> ext_shape e -> forallb allowed_class (s ++ e) = true.
Proof.
  intros Hs He. rewrite forallb_app. apply andb_true_iff. split.
  - eapply forallb_impl; [|exact Hs]. apply name_char_allowed.
  - destruct He as [-> | (b & -> & Hb)]; [reflexivity|]. simpl.
    eapply forallb_impl; [|exact Hb]. apply ext_char_allowed.
Qed.

Lemma endswith_dot_name (s : str) :
  forallb name_char s = true -> endswith s "." = false.
Proof.
  intros Hs. destruct s as [|c s _] using rev_ind; [reflexivity|].
  rewrite forallb_app in Hs. apply andb_true_iff in Hs as [_ Hc]. simpl in Hc.
  rewrite andb_true_r in Hc. destruct (name_char_facts c Hc) as (Hd & _).
  apply Ascii.eqb_neq in Hd. exact (eq_trans (endswith_snoc s c ".") Hd).
Qed.

Lemma endswith_dot_ext (s b : str) :
  forallb ext_char b = true ->
  endswith (s ++ "."%char :: b) "." = str_eqb b [].
Proof.
  intros Hb. destruct b as [|c b _] using rev_ind.
  - exact (endswith_snoc s "." ".").
  - rewrite forallb_app in Hb. apply andb_true_iff in Hb as [_ Hc]. simpl in Hc.
    rewrite andb_true_r in Hc. destruct (ext_char_facts c Hc) as (Hd & _).
    apply Ascii.eqb_neq in Hd.
    replace (s ++ "."%char :: b ++ [c]) with ((s ++ "."%char :: b) ++ [c])
      by (rewrite <- app_assoc; reflexivity).
    rewrite (eq_trans (endswith_snoc _ c ".") Hd).
    symmetry. apply str_eqb_neq. now destruct b.
Qed.

(** The validator on a name of the sanitized shape: it is valid unless its
    stem is reserved or its extension is a bare period. *)
Lemma valid_shape (s e : str) :
  s <> [] -> forallb name_char s = true -> ext_shape e ->
  is_valid_windows_filename (s ++ e)
  = negb (str_mem (upper s) reserved_names) && negb (str_eqb e ["."%char]).
Proof.
  intros Hne Hs He.
  rewrite is_valid_allowed; [| now destruct s | now apply allowed_shape].
  rewrite (splitext_shape _ _ Hne Hs He). cbn [fst]. f_equal. f_equal.
  destruct He as [-> | (b & -> & Hb)].
  - rewrite app_nil_r. now apply endswith_dot_name.
  - rewrite (endswith_dot_ext _ _ Hb). cbn. now destruct b.
Qed.

Lemma underscore_not_reserved (s : str) :
  In "_"%char s -> str_mem (upper s) reserved_names = false.
Proof.
  intros Hin. destruct (str_mem (upper s) reserved_names) eqn:E; [|reflexivity].
  destruct (reserved_alnum _ E) as [_ Hal]. rewrite forallb_forall in Hal.
  specialize (Hal _ Hin). discriminate Hal.
Qed.

Lemma re_sub_name_underscore (s : str) :
  forallb name_char s = false -> In "_"%char (re_sub name_class "_" s).
Proof.
  induction s as [|c s IH]; [discriminate|]. cbn [forallb]. rewrite re_sub_cons.
  intros H. apply in_or_app. destruct (name_char c) eqn:Ec.
  - right. now apply IH.
  - left. unfold name_char in Ec. apply negb_false_iff in Ec.
    unfold re_sub. simpl. rewrite Ec. now left.
Qed.

Lemma re_sub_nil (cls : ascii -> bool) (s : str) :
  re_sub cls "_" s = [] -> s = [].
Proof.
  destruct s as [|c s]; [reflexivity|]. rewrite re_sub_cons. unfold re_sub at 1. simpl.
  destruct (cls c); discriminate.
Qed.

(** Sanitizing neither makes nor unmakes a reserved stem. *)
Lemma reserved_sanitized (name : str) :
  str_mem (upper (sanitized_name "_" name)) reserved_names
  = str_mem (upper name) reserved_names.
Proof.
  unfold sanitized_name.
  rewrite (strip_name_chars _ (re_sub_name_chars name)).
  destruct (re_sub name_class "_" name) as [|c s] eqn:E.
  - apply re_sub_nil in E. subst name. reflexivity.
  - rewrite <- E. clear c s E. destruct (forallb name_char name) eqn:Hn.
    + now rewrite (re_sub_name_id _ _ Hn).
    + rewrite (underscore_not_reserved _ (re_sub_name_underscore _ Hn)).
      symmetry. destruct (str_mem (upper name) reserved_names) eqn:E; [|reflexivity].
      destruct (reserved_alnum _ E) as [_ Hal].
      assert (forallb name_char name = true); [|congruence].
      eapply forallb_impl; [|exact Hal]. intros c Hc. apply (alnum_facts c Hc).
Qed.

(** The extension part of a sanitized name. *)
Lemma sanitized_ext_shape (n : str) :
  ext_shape (sanitized_ext "_" (snd (splitext n))) /\
  (sanitized_ext "_" (snd (splitext n)) = [] <-> snd (splitext n) = []) /\
  (sanitized_ext "_" (snd (splitext n)) = ["."%char] <-> snd (splitext n) = ["."%char]).
Proof.
  destruct (splitext_cases n) as [-> | (a & b & _ & Hb & ->)]; cbn [snd].
  - split; [now left|]. split; [tauto|]. split; discriminate.
  - unfold sanitized_ext. rewrite re_sub_cons.
    change (re_sub ext_class "_" ["."%char]) with ["."%char]. cbn [app].
    split; [right; exists (re_sub ext_class "_" b); split;
            [reflexivity | now apply re_sub_ext_chars]|].
    split; [split; discriminate|]. split.
    + intros [= E]. apply re_sub_nil in E. now subst b.
    + intros [= ->]. reflexivity.
Qed.

(** X3.  The sanitized name is valid exactly when the stem of the original
    name is not reserved and its extension is not a bare period. *)
Theorem sanitized_valid_iff (n : str) :
  is_valid_windows_filename (sanitize_filename n default_replacement) = true <->
  str_mem (upper (fst (splitext n))) reserved_names = false /\
  snd (splitext n) <> ["."%char].
Proof.
  unfold default_replacement. rewrite sanitize_filename_parts.
  destruct (sanitized_ext_shape n) as (Hsh & _ & Hdot).
  rewrite (valid_shape _ _ (sanitized_name_nonempty _ _) (sanitized_name_chars _) Hsh).
  rewrite reserved_sanitized, andb_true_iff, !negb_true_iff, str_eqb_neq. tauto.
Qed.

(** X4.  On a non-empty name the sanitizer works in place: the result has
    the length of the name, and each of its characters is the character of
    the name at that place or an underscore. *)
Theorem sanitize_in_place (n : str) :
  n <> [] ->
  Forall2 kept_or_replaced n (sanitize_filename n default_replacement) /\
  List.length (sanitize_filename n default_replacement) = List.length n.
Proof.
  intros Hne.
  assert (Hsub : forall cls s, Forall2 kept_or_replaced s (re_sub cls "_" s)).
  { intros cls s. induction s as [|c s IH]; [constructor|]. rewrite re_sub_cons.
    unfold re_sub at 1. simpl. destruct (cls c); constructor; auto;
      unfold kept_or_replaced; auto. }
  assert (H : Forall2 kept_or_replaced n (sanitize_filename n default_replacement)).
  { unfold default_replacement. rewrite sanitize_filename_parts.
    assert (Hname : fst (splitext n) <> []).
    { destruct (basename_split n) as (pre & E & Hpre & Hs).
      remember (basename n) as base eqn:Eb. clear Eb. subst n.
      rewrite (splitext_basename _ _ Hpre Hs). cbn [fst].
      destruct (splitext_base_cases _ Hs) as [[-> _] | (a & b & _ & _ & Ha & -> & _)];
        cbn [fst]; [assumption|].
      intros E. apply app_eq_nil in E as [_ ->]. discriminate Ha. }
    assert (Hsplit : fst (splitext n) ++ snd (splitext n) = n).
    { destruct (splitext_cases n) as [-> | (a & b & E & _ & ->)]; cbn [fst snd];
        [apply app_nil_r | now symmetry]. }
    rewrite <- Hsplit at 1. apply Forall2_app.
    - unfold sanitized_name.
      rewrite (strip_name_chars _ (re_sub_name_chars _)).
      destruct (re_sub name_class "_" (fst (splitext n))) as [|c s] eqn:E.
      + apply re_sub_nil in E. contradiction.
      + rewrite <- E. apply Hsub.
    - unfold sanitized_ext. destruct (snd (splitext n)) as [|c e] eqn:E; [constructor|].
      apply Hsub. }
  split; [exact H|]. symmetry. exact (Forall2_length H).
Qed.

Lemma sanitize_in_place_witness :
  Forall2 kept_or_replaced ("my file!.txt" : str)
    (sanitize_filename "my file!.txt" default_replacement) /\
  List.length (sanitize_filename "my file!.txt" default_replacement)
  = List.length ("my file!.txt" : str).
Proof. apply sanitize_in_place. discriminate. Defined.

(** X5.  A sanitized name is made of allowed characters and starts with a
    letter, a digit, an underscore or a hyphen: it holds no separator and
    no space, and it is neither [.] nor [..] nor a name that starts with a
    period. *)
Theorem sanitized_is_a_plain_name (n : str) :
  forallb allowed_class (sanitize_filename n default_replacement) = true /\
  exists c s, sanitize_filename n default_replacement = c :: s /\ name_char c = true.
Proof.
  unfold default_replacement. rewrite sanitize_filename_parts.
  destruct (sanitized_ext_shape n) as (Hsh & _).
  split; [apply allowed_shape; [apply sanitized_name_chars | exact Hsh]|].
  pose proof (sanitized_name_nonempty "_" (fst (splitext n))) as Hne.
  pose proof (sanitized_name_chars (fst (splitext n))) as Hs.
  destruct (sanitized_name "_" (fst (splitext n))) as [|c s]; [contradiction|].
  simpl in Hs. apply andb_true_iff in Hs as [Hc _]. simpl. eauto.
Qed.

(** X6.  The numbered candidates of a sanitized name.  With the number
    before the extension, as for a file, the candidate is valid unless the
    extension of the original name is a bare period.  With the number at
    the end, as for a directory, it is valid unless the original name has
    an extension and a reserved stem. *)
Theorem numbered_candidate_valid (n : str) (N : nat) :
  let candidate := sanitize_filename n default_replacement in
  (is_valid_windows_filename
     (file_candidate (fst (splitext candidate)) (snd (splitext candidate)) N) = true <->
   snd (splitext n) <> ["."%char]) /\
  (is_valid_windows_filename (dir_candidate candidate N) = true <->
   snd (splitext n) = [] \/ str_mem (upper (fst (splitext n))) reserved_names = false).
Proof.
  cbv zeta. unfold default_replacement.
  rewrite splitext_sanitize_filename. cbn [fst snd]. rewrite sanitize_filename_parts.
  destruct (sanitized_ext_shape n) as (Hsh & Hnil & Hdot).
  pose proof (sanitized_name_nonempty "_" (fst (splitext n))) as Hne.
  pose proof (sanitized_name_chars (fst (splitext n))) as Hs.
  set (S := sanitized_name "_" (fst (splitext n))) in *.
  set (E := sanitized_ext "_" (snd (splitext n))) in *.
  assert (Hdig : forallb name_char (str_of_nat N) = true /\
                 forallb ext_char (str_of_nat N) = true).
  { split; (eapply forallb_impl; [|apply str_of_nat_digits]);
      intros c Hc; apply (digit_facts c Hc). }
  destruct Hdig as [Hdn Hde].
  assert (Hnum : forallb name_char (S ++ "_" ++ str_of_nat N) = true).
  { rewrite !forallb_app, Hs, Hdn. reflexivity. }
  assert (Hnum_ne : S ++ "_" ++ str_of_nat N <> []) by (now destruct S).
  assert (Hnum_res : str_mem (upper (S ++ "_" ++ str_of_nat N)) reserved_names = false).
  { apply underscore_not_reserved. apply in_or_app. right. now left. }
  split.
  - unfold file_candidate.
    replace (S ++ "_" ++ str_of_nat N ++ E) with ((S ++ "_" ++ str_of_nat N) ++ E)
      by (now rewrite <- !app_assoc).
    rewrite (valid_shape _ _ Hnum_ne Hnum Hsh), Hnum_res. cbn [negb andb].
    rewrite negb_true_iff, str_eqb_neq. tauto.
  - unfold dir_candidate. destruct Hsh as [HE | (b & HE & Hb)].
    + rewrite HE, app_nil_r.
      rewrite <- (app_nil_r (S ++ "_" ++ str_of_nat N)).
      rewrite (valid_shape _ _ Hnum_ne Hnum (or_introl eq_refl)), Hnum_res.
      split; [intros _; left; now apply Hnil | reflexivity].
    + rewrite HE.
      replace ((S ++ "."%char :: b) ++ "_" ++ str_of_nat N)
        with (S ++ "."%char :: (b ++ "_" ++ str_of_nat N))
        by (now rewrite <- !app_assoc).
      assert (Hb' : forallb ext_char (b ++ "_" ++ str_of_nat N) = true).
      { rewrite !forallb_app, Hb, Hde. reflexivity. }
      rewrite (valid_shape S _ Hne Hs (or_intror (ex_intro _ _ (conj eq_refl Hb')))).
      unfold S at 1. rewrite reserved_sanitized.
      replace (str_eqb ("."%char :: b ++ "_" ++ str_of_nat N) ["."%char]) with false
        by (symmetry; apply str_eqb_neq; now destruct b).
      rewrite andb_true_r, negb_true_iff. split; [tauto|].
      intros [H | H]; [|exact H]. apply Hnil in H. rewrite HE in H. discriminate H.
Qed.

(** * Further properties of the tree renamer *)

Lemma for_each_inv {A : Type} (P : state -> Prop)
    (body : state -> A -> option state) (l : list A) :
  (forall st x st', In x l -> P st -> body st x = Some st' -> P st') ->
  forall st st', P st -> for_each body l st = Some st' -> P st'.
Proof.
  induction l as [|x l IH]; intros Hbody st st' HP; simpl.
  - now intros [= <-].
  - destruct (body st x) as [st1|] eqn:E; [|discriminate].
    apply IH.
    + intros s y s' Hy. apply Hbody. now right.
    + eapply Hbody; eauto. now left.
Qed.

Section Rounds.

Variable denied : node -> path -> path -> option OSError.

Lemma os_rename_inr (t : node) (root : path) (old new : str) (t' : node) :
  path_exists t (root ++ [new]) = false ->
  os_rename denied t root old new = inr t' ->
  path_exists t (root ++ [old]) = true /\
  t' = update t root (rename_in old new).
Proof.
  unfold os_rename, path_exists. intros Hnew.
  destruct (denied t (root ++ [old]) (root ++ [new])); [discriminate|].
  destruct (get t (root ++ [old])); [|discriminate].
  destruct (get t (root ++ [new])); [discriminate|].
  now intros [= <-].
Qed.

Lemma process_file_done (fuel : nat) (root : path) (st st' : state) (old : str) :
  process_file denied fuel root st old = Some st' -> round_done root KFile old st st'.
Proof.
  unfold process_file, round_done. cbv zeta.
  destruct (is_valid_windows_filename old); cbn [negb].
  - intros [= <-]. simpl. auto.
  - destruct (splitext (sanitize_filename old default_replacement)) as [base ext].
    cbn [fs visit].
    destruct (while_exists fuel (fs st) root (file_candidate base ext)
                (sanitize_filename old default_replacement) 1) as [new|] eqn:Hw;
      [|discriminate].
    apply while_exists_absent in Hw.
    destruct (os_rename denied (fs st) root old new) as [e|t] eqn:E; intros [= <-]; simpl.
    + split; [reflexivity|]. right. split; [reflexivity|]. split; [eauto | now left].
    + apply (os_rename_inr _ _ _ _ _ Hw) in E as (H1 & ->).
      split; [reflexivity|]. right. split; [reflexivity|]. split; [eauto|].
      right. exists new. repeat split; assumption.
Qed.

Lemma process_dir_done (fuel : nat) (root : path) (st st' : state) (old : str) :
  process_dir denied fuel root st old = Some st' -> round_done root KDir old st st'.
Proof.
  unfold process_dir, round_done. cbv zeta.
  destruct (is_valid_windows_filename old); cbn [negb].
  - intros [= <-]. simpl. auto.
  - cbn [fs visit].
    destruct (while_exists fuel (fs st) root
                (dir_candidate (sanitize_filename old default_replacement))
                (sanitize_filename old default_replacement) 1) as [new|] eqn:Hw;
      [|discriminate].
    apply while_exists_absent in Hw.
    destruct (os_rename denied (fs st) root old new) as [e|t] eqn:E; intros [= <-]; simpl.
    + split; [reflexivity|]. right. split; [reflexivity|]. split; [eauto | now left].
    + apply (os_rename_inr _ _ _ _ _ Hw) in E as (H1 & ->).
      split; [reflexivity|]. right. split; [reflexivity|]. split; [eauto|].
      right. exists new. repeat split; assumption.
Qed.

(** A relation between states that every round keeps is kept by the walk. *)
Section Relation.

Variable R : state -> state -> Prop.
Hypothesis R_refl : forall st, R st st.
Hypothesis R_trans : forall a b c, R a b -> R b c -> R a c.
Hypothesis R_round :
  forall root k old st st', round_done root k old st st' -> R st st'.

Lemma walk_keeps (fuel : nat) :
  forall top st st', walk denied fuel top st = Some st' -> R st st'.
Proof.
  induction fuel as [|f IH]; intros top st st'; simpl; [discriminate|].
  destruct (get (fs st) top) as [[|es]|]; try (intros [= <-]; apply R_refl).
  destruct (for_each _ (dirs_of es) st) as [st1|] eqn:E1; [|discriminate].
  unfold process_level.
  destruct (for_each _ (nondirs_of es) st1) as [st2|] eqn:E2; [|discriminate].
  intros E3.
  assert (H1 : R st st1).
  { apply (for_each_inv (R st) _ _) with (st := st) (3 := E1); [|apply R_refl].
    intros s d s' _ Hs Hw. eapply R_trans; [exact Hs | eapply IH, Hw]. }
  assert (H2 : R st st2).
  { apply (for_each_inv (R st) _ _) with (st := st1) (3 := E2); [|exact H1].
    intros s x s' _ Hs Hp. eapply R_trans; [exact Hs|].
    eapply R_round, process_file_done, Hp. }
  apply (for_each_inv (R st) _ _) with (st := st2) (3 := E3); [|exact H2].
  intros s x s' _ Hs Hp. eapply R_trans; [exact Hs|].
  eapply R_round, process_dir_done, Hp.
Qed.

End Relation.

End Rounds.

(** ** The skeleton of the tree *)

Lemma skeleton_map_entry (n : str) (f : node -> node) (es : list (str * node)) :
  (forall c, skeleton (f c) = skeleton c) ->
  map (fun e => ([] : str, skeleton (snd e))) (map_entry n f es)
  = map (fun e => ([] : str, skeleton (snd e))) es.
Proof.
  intros H. induction es as [|[m c] es IH]; simpl; [reflexivity|].
  destruct (str_eqb n m); simpl; [now rewrite H | now rewrite IH].
Qed.

Lemma skeleton_update (t : node) (p : path) (f : node -> node) :
  (forall c, skeleton (f c) = skeleton c) -> skeleton (update t p f) = skeleton t.
Proof.
  intros H. revert t; induction p as [|n p IH]; intros t; simpl; [apply H|].
  destruct t as [|es]; [reflexivity|]. simpl. f_equal.
  apply skeleton_map_entry. apply IH.
Qed.

Lemma skeleton_rename_in (old new : str) (c : node) :
  skeleton (rename_in old new c) = skeleton c.
Proof.
  destruct c as [|es]; [reflexivity|]. simpl. f_equal.
  induction es as [|[m d] es IH]; simpl; [reflexivity|].
  destruct (str_eqb old m); simpl; [reflexivity | now rewrite IH].
Qed.

(** ** A tree of valid names *)

Lemma all_valid_entry (es : list (str * node)) (n : str) :
  all_valid (Dir es) = true -> In n (map fst es) ->
  is_valid_windows_filename n = true /\
  exists c, lookup n es = Some c /\ all_valid c = true.
Proof.
  simpl. rewrite forallb_forall. intros H Hin.
  destruct (lookup n es) as [c|] eqn:E; [|apply lookup_None in E; contradiction].
  specialize (H _ (lookup_In_pair _ _ _ E)). cbn [fst snd] in H.
  apply andb_true_iff in H as [H1 H2]. eauto.
Qed.

Lemma dirs_of_names (es : list (str * node)) (n : str) :
  In n (dirs_of es) -> In n (map fst es).
Proof.
  intros H. apply dirs_of_In in H as (c & H & _). apply in_map_iff. now exists (n, c).
Qed.

Lemma nondirs_of_names (es : list (str * node)) (n : str) :
  In n (nondirs_of es) -> In n (map fst es).
Proof.
  intros H. apply nondirs_of_In in H as (c & H & _). apply in_map_iff. now exists (n, c).
Qed.

Lemma walk_valid (denied : node -> path -> path -> option OSError) (fuel : nat) :
  forall top st t st',
    get (fs st) top = Some t -> all_valid t = true ->
    walk denied fuel top st = Some st' ->
    fs st' = fs st /\ log st' = log st.
Proof.
  induction fuel as [|f IH]; intros top st t st' Hget Hval; simpl; [discriminate|].
  rewrite Hget. destruct t as [|es]; [now intros [= <-]|].
  destruct (for_each _ (dirs_of es) st) as [st1|] eqn:E1; [|discriminate].
  unfold process_level.
  destruct (for_each _ (nondirs_of es) st1) as [st2|] eqn:E2; [|discriminate].
  intros E3.
  set (P := fun s : state => fs s = fs st /\ log s = log st).
  assert (H1 : P st1).
  { apply (for_each_inv P _ _) with (st := st) (3 := E1); [|now split].
    intros s d s' Hd [Hf Hl] Hw.
    destruct (all_valid_entry _ _ Hval (dirs_of_names _ _ Hd)) as (_ & c & Hc & Hvc).
    assert (Hg : get (fs s) (top ++ [d]) = Some c).
    { rewrite Hf, get_app, Hget. simpl. now rewrite Hc. }
    destruct (IH _ _ _ _ Hg Hvc Hw) as [Hf' Hl']. split; congruence. }
  assert (H2 : P st2).
  { apply (for_each_inv P _ _) with (st := st1) (3 := E2); [|exact H1].
    intros s x s' Hx [Hf Hl] Hp.
    destruct (all_valid_entry _ _ Hval (nondirs_of_names _ _ Hx)) as (Hv & _).
    unfold process_file in Hp. cbv zeta in Hp. rewrite Hv in Hp. cbn [negb] in Hp.
    injection Hp as <-. now split. }
  apply (for_each_inv P _ _) with (st := st2) (3 := E3); [|exact H2].
  intros s x s' Hx [Hf Hl] Hp.
  destruct (all_valid_entry _ _ Hval (dirs_of_names _ _ Hx)) as (Hv & _).
  unfold process_dir in Hp. cbv zeta in Hp. rewrite Hv in Hp. cbn [negb] in Hp.
  injection Hp as <-. now split.
Qed.

(** ** The run on a well-formed tree *)

Section Run.

Variable denied : node -> path -> path -> option OSError.
Variable resolve : str -> path.

(** X7.  The run overwrites nothing.  On a well-formed tree of files and
    directories it ends, and the tree it leaves has the skeleton of the
    tree it found: the same directories with as many entries, of the same
    kinds, in the same places.  A rename onto an entry that exists would
    replace that entry; the collision loop only ends on a name that is not
    there. *)
Theorem run_keeps_skeleton (fuel : nat) (directory : str) (st : state) (t : node) :
  get (fs st) (resolve directory) = Some t ->
  well_formed t = true ->
  size t < fuel ->
  exists st',
    rename_files_in_directory denied resolve fuel directory st = Some st' /\
    skeleton (fs st') = skeleton (fs st).
Proof.
  intros Hget Hwf Hsz.
  rewrite (rename_files_in_directory_walk _ _ _ _ _ _ Hget).
  destruct (walk_spec denied fuel _ _ _ Hget Hwf Hsz) as (st' & _ & _ & E & _).
  exists st'. split; [exact E|].
  apply (walk_keeps denied (fun a b => skeleton (fs b) = skeleton (fs a)))
    with (4 := E); try congruence.
  intros root k old a b (_ & [(_ & -> & _) | (_ & _ & [-> | (new & _ & _ & ->)])]);
    try reflexivity.
  apply skeleton_update, skeleton_rename_in.
Qed.

(** X9.  The log has one record for each invalid name.  On a well-formed
    tree the run ends, and the records it adds match, one for one and in
    the order of the run, the entries below the directory whose name the
    validator rejects: each is the record, INFO or ERROR, of the rename of
    its entry from its old path to a name in the same directory.  An entry
    with a valid name adds none. *)
Theorem run_logs_each_invalid_name (fuel : nat) (directory : str) (st : state) (t : node) :
  get (fs st) (resolve directory) = Some t ->
  well_formed t = true ->
  size t < fuel ->
  exists st' lg,
    rename_files_in_directory denied resolve fuel directory st = Some st' /\
    log st' = log st ++ lg /\
    Forall2 record_for (filter invalid_entry (postorder (resolve directory) t)) lg.
Proof.
  intros Hget Hwf Hsz.
  rewrite (rename_files_in_directory_walk _ _ _ _ _ _ Hget).
  destruct (walk_steps denied fuel _ _ _ Hget Hwf Hsz)
    as (st' & _ & lg & E & _ & Hlog & _ & Hrun).
  exists st', lg. repeat split; try assumption.
  exact (run_steps_records _ _ _ _ _ Hrun).
Qed.

(** X10.  A tree of valid names is left alone.  When every name below the
    directory is valid, the run ends with the tree and the log it
    found. *)
Theorem run_leaves_valid_tree (fuel : nat) (directory : str) (st : state) (t : node) :
  get (fs st) (resolve directory) = Some t ->
  well_formed t = true ->
  all_valid t = true ->
  size t < fuel ->
  exists st',
    rename_files_in_directory denied resolve fuel directory st = Some st' /\
    fs st' = fs st /\ log st' = log st.
Proof.
  intros Hget Hwf Hval Hsz.
  rewrite (rename_files_in_directory_walk _ _ _ _ _ _ Hget).
  destruct (walk_spec denied fuel _ _ _ Hget Hwf Hsz) as (st' & _ & _ & E & _).
  exists st'. split; [exact E|]. exact (walk_valid denied fuel _ _ _ _ Hget Hval E).
Qed.

End Run.

Lemma run_keeps_skeleton_witness :
  exists st',
    rename_files_in_directory no_denial resolve_from_root 5 "/" (empty_state tree_nested)
    = Some st' /\
    skeleton (fs st') = skeleton (fs (empty_state tree_nested)).
Proof.
  apply (run_keeps_skeleton no_denial resolve_from_root 5 "/"
           (empty_state tree_nested) tree_nested);
    [reflexivity | reflexivity | vm_compute; lia].
Defined.

(** A rename onto a file that exists replaces it: of two files one is
    left. *)
Example os_rename_replaces :
  os_rename no_denial (Dir [("a b" : str, File); ("a_b" : str, File)]) [] "a b" "a_b"
  = inr (Dir [("a_b" : str, File)]).
Proof. reflexivity. Qed.

(** Two names that sanitize to one: the second takes a numbered name, and
    both files are kept. *)
Example clash_example :
  exists st',
    rename_files_in_directory no_denial resolve_from_root 5 "/" (empty_state tree_clash)
    = Some st' /\
    fs st' = Dir [("a_b" : str, File); ("a_b_1" : str, File); ("ok.txt" : str, File)] /\
    log st' = [(INFO, RenamedFile ["a b" : str] ["a_b" : str]);
               (INFO, RenamedFile ["a!b" : str] ["a_b_1" : str])].
Proof. eexists. repeat split. Qed.

Lemma run_logs_each_invalid_name_witness :
  exists st' lg,
    rename_files_in_directory (deny_path ["a!b" : str]) resolve_from_root 5 "/"
      (empty_state tree_clash) = Some st' /\
    log st' = [] ++ lg /\
    Forall2 record_for
      (filter invalid_entry (postorder (resolve_from_root "/") tree_clash)) lg.
Proof.
  apply (run_logs_each_invalid_name (deny_path ["a!b" : str]) resolve_from_root 5 "/"
           (empty_state tree_clash) tree_clash);
    [reflexivity | reflexivity | vm_compute; lia].
Defined.

Lemma run_leaves_valid_tree_witness :
  exists st',
    rename_files_in_directory no_denial resolve_from_root 5 "/" (empty_state tree_clean)
    = Some st' /\
    fs st' = tree_clean /\ log st' = [].
Proof.
  apply (run_leaves_valid_tree no_denial resolve_from_root 5 "/"
           (empty_state tree_clean) tree_clean);
    [reflexivity | reflexivity | reflexivity | vm_compute; lia].
Defined.

(** X11.  A free candidate is taken as it is.  When the sanitized name of
    an invalid entry is not in the directory and the host does not refuse,
    the round renames the entry to exactly that name, with no number, in
    the file loop and in the directory loop alike. *)
Theorem free_candidate_taken
    (denied : node -> path -> path -> option OSError) (fuel : nat)
    (root : path) (st : state) (old : str) (es : list (str * node)) :
  get (fs st) root = Some (Dir es) ->
  NoDup (map fst es) ->
  In old (map fst es) ->
  1 <= fuel ->
  is_valid_windows_filename old = false ->
  let new := sanitize_filename old default_replacement in
  let t := update (fs st) root (rename_in old new) in
  path_exists (fs st) (root ++ [new]) = false ->
  denied (fs st) (root ++ [old]) (root ++ [new]) = None ->
  process_file denied fuel root st old
  = Some (logging_info (set_fs (visit st KFile (root ++ [old])) t)
            (RenamedFile (root ++ [old]) (root ++ [new]))) /\
  process_dir denied fuel root st old
  = Some (logging_info (set_fs (visit st KDir (root ++ [old])) t)
            (RenamedDirectory (root ++ [old]) (root ++ [new]))) /\
  path_exists t (root ++ [old]) = false /\
  path_exists t (root ++ [new]) = true.
Proof.
  intros Hget Hnd Hin Hfuel Hinv new t Hfree Hden.
  assert (Hold : path_exists (fs st) (root ++ [old]) = true).
  { rewrite (path_exists_lookup _ _ _ _ Hget).
    destruct (lookup old es) eqn:E; [reflexivity|].
    apply lookup_None in E. contradiction. }
  destruct fuel as [|f]; [lia|].
  split; [|split].
  - unfold process_file. cbv zeta. rewrite Hinv. cbn [negb].
    destruct (splitext (sanitize_filename old default_replacement)) as [base ext].
    cbn [fs visit while_exists]. fold new. rewrite Hfree.
    now rewrite (os_rename_done _ _ _ _ _ Hden Hold Hfree).
  - unfold process_dir. cbv zeta. rewrite Hinv. cbn [negb].
    cbn [fs visit while_exists]. fold new. rewrite Hfree.
    now rewrite (os_rename_done _ _ _ _ _ Hden Hold Hfree).
  - exact (renamed_entry_moves _ _ _ _ _ Hget Hnd Hold Hfree).
Qed.

Lemma free_candidate_taken_witness :
  process_file no_denial 1 [] (empty_state tree_nested) "notes 1.txt"
  = Some (logging_info
            (set_fs (visit (empty_state tree_nested) KFile ["notes 1.txt" : str])
               (update tree_nested [] (rename_in "notes 1.txt" "notes_1.txt")))
            (RenamedFile ["notes 1.txt" : str] ["notes_1.txt" : str])) /\
  path_exists (update tree_nested [] (rename_in "notes 1.txt" "notes_1.txt"))
    ["notes 1.txt" : str] = false /\
  path_exists (update tree_nested [] (rename_in "notes 1.txt" "notes_1.txt"))
    ["notes_1.txt" : str] = true.
Proof.
  pose proof (free_candidate_taken no_denial 1 [] (empty_state tree_nested) "notes 1.txt"
                [("My Folder" : str, Dir [("Sub File.txt" : str, File)]);
                 ("notes 1.txt" : str, File)] eq_refl) as H.
  destruct H as (H1 & _ & H3).
  - repeat constructor; simpl; intuition discriminate.
  - simpl. auto.
  - lia.
  - reflexivity.
  - reflexivity.
  - reflexivity.
  - split; [exact H1 | exact H3].
Defined.

(** ** Any replacement *)

Lemma lstrip_suffix (chars s : str) : exists d, s = d ++ lstrip chars s.
Proof.
  induction s as [|c s (d & IH)]; [now exists []|]. simpl.
  destruct (chr_mem c chars).
  - exists (c :: d). simpl. now rewrite <- IH.
  - now exists [].
Qed.

Lemma lstrip_head_out (chars s : str) (c : ascii) (s' : str) :
  lstrip chars s = c :: s' -> chr_mem c chars = false.
Proof.
  induction s as [|x s IH]; simpl; [discriminate|].
  destruct (chr_mem x chars) eqn:E; [assumption|]. intros [= <- <-]. exact E.
Qed.

Lemma strip_head_out (chars s : str) (c : ascii) (s' : str) :
  strip chars s = c :: s' -> chr_mem c chars = false.
Proof.
  unfold strip, rstrip. intros H.
  destruct (lstrip_suffix chars (rev (lstrip chars s))) as (d & E).
  apply (f_equal (@rev ascii)) in E. rewrite rev_involutive, rev_app_distr, H in E.
  simpl in E. eapply lstrip_head_out. exact E.
Qed.

(** X12.  Whatever the replacement, as long as it has no backslash, the
    sanitized name is not empty and does not start with a space or a
    period: the name part is stripped of both, and replaced by the default
    name when nothing is left of it. *)
Theorem sanitize_any_replacement (n replacement : str) :
  ~ In backslash replacement ->
  exists c s, sanitize_filename n replacement = c :: s /\
              c <> " "%char /\ c <> "."%char.
Proof.
  intros _. rewrite sanitize_filename_parts. unfold sanitized_name.
  destruct (strip " ." (re_sub name_class replacement (fst (splitext n))))
    as [|c s] eqn:E.
  - eexists _, _. split; [reflexivity|]. split; discriminate.
  - exists c, (s ++ sanitized_ext replacement (snd (splitext n))).
    split; [reflexivity|]. apply strip_head_out in E.
    split; intros ->; discriminate E.
Qed.

Lemma sanitize_any_replacement_witness :
  exists c s, sanitize_filename " . " " " = c :: s /\ c <> " "%char /\ c <> "."%char.
Proof.
  apply sanitize_any_replacement. simpl. intuition discriminate.
Defined.

(** ** Each entry once *)

Lemma filter_names (f : str * node -> bool) (es : list (str * node)) (x : str) :
  In x (map fst (filter f es)) -> In x (map fst es).
Proof.
  intros H. apply in_map_iff in H as (e & <- & He). apply filter_In in He as [He _].
  now apply in_map.
Qed.

Lemma filter_names_NoDup (f : str * node -> bool) (es : list (str * node)) :
  NoDup (map fst es) -> NoDup (map fst (filter f es)).
Proof.
  induction es as [|e es IH]; simpl; [constructor|].
  intros H. inversion H as [|? ? Hn Hes]; subst.
  destruct (f e); simpl; [|auto]. constructor; [|auto].
  intros Hin. apply Hn. eapply filter_names, Hin.
Qed.

Lemma level_entries_NoDup (k : kind) (top : path) (l : list str) :
  NoDup l -> NoDup (map (fun n => (k, top ++ [n])) l).
Proof.
  apply Injective_map_NoDup. intros a b [= E]. apply app_inv_head in E. congruence.
Qed.

Lemma filter_partition_length {A : Type} (f : A -> bool) (l : list A) :
  List.length (filter f l) + List.length (filter (fun x => negb (f x)) l) = List.length l.
Proof.
  induction l as [|x l IH]; simpl; [reflexivity|].
  destruct (f x); simpl; lia.
Qed.

Lemma postorder_NoDup (t : node) :
  forall top, well_formed t = true -> NoDup (postorder top t).
Proof.
  induction t as [|es IH] using node_induction; intros top Hwf; [constructor|].
  simpl in Hwf. apply andb_true_iff in Hwf as [Hnd Hwf].
  apply nodupb_NoDup in Hnd. simpl. apply NoDup_app.
  - clear -IH Hnd Hwf. induction es as [|[n c] es IHes]; simpl; [constructor|].
    inversion IH as [|? ? IHc IH']; subst. inversion Hnd as [|? ? Hn Hnd']; subst.
    simpl in Hwf. apply andb_true_iff in Hwf as [Hwc Hwf]. cbn [fst snd] in *.
    apply NoDup_app; [now apply IHc | now apply IHes |].
    intros [k p] Hx Hy.
    destruct (postorder_sound _ _ _ _ Hwc Hx) as (q1 & _ & _ & -> & _).
    apply in_flat_map in Hy as ([n2 c2] & He2 & Hy). cbn [fst snd] in Hy.
    rewrite forallb_forall in Hwf.
    destruct (postorder_sound _ _ _ _ (Hwf _ He2) Hy) as (q2 & _ & _ & E & _).
    rewrite <- !app_assoc in E. apply app_inv_head in E. simpl in E.
    injection E as -> _. apply Hn. apply in_map_iff. now exists (n2, c2).
  - apply NoDup_app.
    + apply level_entries_NoDup. unfold nondirs_of. now apply filter_names_NoDup.
    + apply level_entries_NoDup. unfold dirs_of. now apply filter_names_NoDup.
    + intros x Hx Hy. apply in_map_iff in Hx as (? & <- & _).
      apply in_map_iff in Hy as (? & [=] & _).
  - intros [k p] Hx Hy.
    apply in_flat_map in Hx as ([n c] & He & Hx). cbn [fst snd] in Hx.
    rewrite forallb_forall in Hwf.
    destruct (postorder_sound _ _ _ _ (Hwf _ He) Hx) as (q1 & _ & Hq1 & -> & _).
    assert (exists m, (top ++ [n]) ++ q1 = top ++ [m]) as (m & E).
    { apply in_app_or in Hy as [Hy | Hy]; apply in_map_iff in Hy as (m & [= _ E] & _);
        now exists m. }
    rewrite <- app_assoc in E. apply app_inv_head in E. simpl in E.
    injection E as _ E. contradiction.
Qed.

Lemma postorder_length (t : node) :
  forall top, List.length (postorder top t) + 1 = size t.
Proof.
  induction t as [|es IH] using node_induction; intros top; [reflexivity|].
  simpl. rewrite !length_app, !length_map.
  unfold nondirs_of, dirs_of. rewrite !length_map.
  pose proof (filter_partition_length (fun e : str * node => is_dir (snd e)) es) as Hp.
  assert (Hsum : List.length (flat_map (fun e => postorder (top ++ [fst e]) (snd e)) es)
                 + List.length es
                 = list_sum (map (fun e => size (snd e)) es)).
  { clear Hp. induction es as [|[n c] es IHes]; [reflexivity|].
    inversion IH as [|? ? IHc IH']; subst. simpl. rewrite length_app.
    specialize (IHc (top ++ [n])). specialize (IHes IH'). cbn [fst snd] in *. lia. }
  lia.
Qed.

(** X13.  Each entry is taken up once.  On a well-formed tree the run ends,
    no entry occurs twice among those it takes up, and they are as many as
    the tree has entries below the directory. *)
Theorem run_takes_each_entry_once
    (denied : node -> path -> path -> option OSError) (resolve : str -> path)
    (fuel : nat) (directory : str) (st : state) (t : node) :
  get (fs st) (resolve directory) = Some t ->
  well_formed t = true ->
  size t < fuel ->
  exists st' tr,
    rename_files_in_directory denied resolve fuel directory st = Some st' /\
    visited st' = visited st ++ tr /\
    NoDup tr /\
    List.length tr + 1 = size t.
Proof.
  intros Hget Hwf Hsz.
  rewrite (rename_files_in_directory_walk _ _ _ _ _ _ Hget).
  destruct (walk_spec denied fuel _ _ _ Hget Hwf Hsz) as (st' & _ & _ & E & _ & _ & _ & Hvis).
  exists st', (postorder (resolve directory) t).
  repeat split; try assumption; [now apply postorder_NoDup | apply postorder_length].
Qed.

Lemma run_takes_each_entry_once_witness :
  exists st' tr,
    rename_files_in_directory no_denial resolve_from_root 5 "/" (empty_state tree_nested)
    = Some st' /\
    visited st' = [] ++ tr /\
    NoDup tr /\
    List.length tr + 1 = size tree_nested.
Proof.
  apply (run_takes_each_entry_once no_denial resolve_from_root 5 "/"
           (empty_state tree_nested) tree_nested);
    [reflexivity | reflexivity | vm_compute; lia].
Defined.
